(** * OBJ mesh import: the two [loadOBJ] variants and vertex deduplication

    The repository holds two viewers.  [src/main.cpp] loads an OBJ file into a
    flat vertex array (one [Vertex] per face corner); the textured viewer
    loads it into an indexed mesh, sharing equal vertices through a
    [std::unordered_map<Vertex, uint32_t>].  Both are embedded here as pure
    functions of what the OBJ reader returned.

    Conventions of the embedding:
    - a [float] is its 4-byte object representation (IEEE-754 binary32, least
      significant byte first); no arithmetic is ever done on floats by
      [loadOBJ], they are only copied and compared by [memcmp];
    - [int], [size_t] and [uint32_t] values are integers of [Z]; the
      conversion to [uint32_t] is written out as [Z.modulo], and [int]
      arithmetic that leaves the range of [int] is undefined;
    - a call either returns, throws a [std::runtime_error], or runs into
      behaviour the C++ standard leaves undefined (unchecked
      [std::vector::operator[]], signed overflow, writing past a [new[]]
      block); the three are the constructors of [outcome];
    - the [unordered_map] is a [gmap] keyed by the vertex value: its key
      equality is [Vertex::operator==], which [Vertex_eq_true] below shows to
      be identity of values, and [std::hash<Vertex>] is a function of the
      value, so it only decides the bucket and never the result of a lookup;
    - left out: the messages written to [std::cerr] and [std::cout], and
      [std::bad_alloc] (allocation is taken to succeed). *)

From Stdlib Require Import ZArith Lia.
From Stdlib.Strings Require Import Byte.
From stdpp Require Import base option list gmap strings.

#[local] Open Scope Z_scope.
#[local] Set Warnings "-clear-no-such-hyp".

(** ** Outcomes of a C++ call *)

Inductive undefined_behaviour : Type :=
  | OutOfBoundsRead
  | SignedOverflow
  | BufferOverrun.

Inductive outcome (A : Type) : Type :=
  | Ok (a : A)
  | Throw (what : string)
  | Undefined (u : undefined_behaviour).

Arguments Ok {A} a.
Arguments Throw {A} what.
Arguments Undefined {A} u.

#[export] Instance outcome_ret : MRet outcome := @Ok.

#[export] Instance outcome_bind : MBind outcome := fun A B f m =>
  match m with
  | Ok a => f a
  | Throw what => Throw what
  | Undefined u => Undefined u
  end.

(** A [for] loop over a container, threading the loop-carried variables. *)
Fixpoint for_each {A S : Type} (body : S -> A -> outcome S) (l : list A) (s : S)
  : outcome S :=
  match l with
  | [] => Ok s
  | x :: l' => s' ← body s x; for_each body l' s'
  end.

Definition is_Ok {A : Type} (o : outcome A) : bool :=
  match o with Ok _ => true | _ => false end.

(** ** Machine integers *)

Definition INT_MIN : Z := - 2 ^ 31.
Definition INT_MAX : Z := 2 ^ 31 - 1.

Definition int_result (z : Z) : outcome Z :=
  if (INT_MIN <=? z) && (z <=? INT_MAX) then Ok z else Undefined SignedOverflow.

Definition int_mul (x y : Z) : outcome Z := int_result (x * y).
Definition int_add (x y : Z) : outcome Z := int_result (x + y).

(** [(uint32_t) n] *)
Definition to_uint32 (n : Z) : Z := n mod 2 ^ 32.

(** [v[i]] on a [std::vector]: no bounds check.  A negative [int] index is
    converted to [size_t] and lands far beyond any vector's size. *)
Definition vec_at {A : Type} (v : list A) (i : Z) : outcome A :=
  if 0 <=? i then
    match v !! Z.to_nat i with
    | Some x => Ok x
    | None => Undefined OutOfBoundsRead
    end
  else Undefined OutOfBoundsRead.

(** ** Floats as object representations *)

Record float : Type := Float { byte0 : byte; byte1 : byte; byte2 : byte; byte3 : byte }.

Definition float_bytes (f : float) : list byte :=
  [byte0 f; byte1 f; byte2 f; byte3 f].

(** The 32-bit pattern of a float. *)
Definition float_bits (f : float) : Z :=
  Z.of_N (Byte.to_N (byte0 f))
  + 2 ^ 8 * (Z.of_N (Byte.to_N (byte1 f))
  + 2 ^ 8 * (Z.of_N (Byte.to_N (byte2 f))
  + 2 ^ 8 * Z.of_N (Byte.to_N (byte3 f)))).

(** [0.f] is [0x00000000], [1.f] is [0x3F800000], [-0.f] is [0x80000000]. *)
Definition f0 : float := Float x00 x00 x00 x00.
Definition f1 : float := Float x00 x00 x80 x3f.
Definition fneg0 : float := Float x00 x00 x00 x80.

(** ** The vertex structs (both files) *)

(** [vec2]'s fields are [x] and [y] in the source; they carry a suffix here
    because [vec3] has the same names. *)
Record vec2 : Type := Vec2 { x2 : float; y2 : float }.
Record vec3 : Type := Vec3 { x : float; y : float; z : float }.

Record Vertex : Type := mkVertex {
  position : vec3;
  normal : vec3;
  texcoords : vec2
}.

(** The eight numeric components, in declaration order. *)
Definition components (v : Vertex) : list float :=
  [x (position v); y (position v); z (position v);
   x (normal v); y (normal v); z (normal v);
   x2 (texcoords v); y2 (texcoords v)].

(** [sizeof(Vertex)] is 32: eight floats and no padding. *)
Definition sizeof_Vertex : nat := 32.

Definition object_representation (v : Vertex) : list byte :=
  concat (map float_bytes (components v)).

(** [memcmp(a, b, n)]: the first differing byte decides, compared as
    [unsigned char]; here the sign of the result is returned. *)
Fixpoint memcmp (a b : list byte) (n : nat) : Z :=
  match n, a, b with
  | S n', ca :: a', cb :: b' =>
      match N.compare (Byte.to_N ca) (Byte.to_N cb) with
      | Eq => memcmp a' b' n'
      | Lt => -1
      | Gt => 1
      end
  | _, _, _ => 0
  end.

(** [Vertex::operator==] of the indexed viewer. *)
Definition Vertex_eq (this other : Vertex) : bool :=
  memcmp (object_representation this) (object_representation other) sizeof_Vertex =? 0.

#[export] Instance byte_eq_dec : EqDecision byte := Byte.byte_eq_dec.
#[export] Instance float_eq_dec : EqDecision float.
Proof. solve_decision. Defined.
#[export] Instance vec2_eq_dec : EqDecision vec2.
Proof. solve_decision. Defined.
#[export] Instance vec3_eq_dec : EqDecision vec3.
Proof. solve_decision. Defined.
#[export] Instance Vertex_eq_dec : EqDecision Vertex.
Proof. solve_decision. Defined.

#[export] Instance byte_countable : Countable byte :=
  inj_countable Byte.to_N Byte.of_N Byte.of_to_N.

#[export] Instance float_countable : Countable float :=
  inj_countable'
    (fun f => (byte0 f, byte1 f, byte2 f, byte3 f))
    (fun t => let '(a, b, c, d) := t in Float a b c d)
    (fun f => match f with Float _ _ _ _ => eq_refl end).

#[export] Instance Vertex_countable : Countable Vertex :=
  inj_countable'
    (fun v => components v)
    (fun l =>
       match l with
       | [px; py; pz; nx; ny; nz; tx; ty] =>
           mkVertex (Vec3 px py pz) (Vec3 nx ny nz) (Vec2 tx ty)
       | _ => mkVertex (Vec3 f0 f0 f0) (Vec3 f0 f0 f0) (Vec2 f0 f0)
       end)
    (fun v =>
       match v with
       | mkVertex (Vec3 _ _ _) (Vec3 _ _ _) (Vec2 _ _) => eq_refl
       end).

(** ** What the OBJ reader hands over (tiny_obj_loader.h) *)

Module tinyobj.

Record index_t : Type := mk_index {
  vertex_index : Z;
  normal_index : Z;
  texcoord_index : Z
}.

Record mesh_t : Type := mk_mesh {
  indices : list index_t;
  num_face_vertices : list Z
}.

Record shape_t : Type := mk_shape { mesh : mesh_t }.

Record attrib_t : Type := mk_attrib {
  vertices : list float;
  normals : list float;
  texcoords : list float
}.

(** [ParseFromFile] followed by [GetAttrib] and [GetShapes]: [None] when
    the file cannot be read or parsed. *)
Definition parsed : Type := option (attrib_t * list shape_t).

End tinyobj.

(** [arr[stride * idx + k]], the product and the sum computed in [int]. *)
Definition fetch (arr : list float) (stride idx k : Z) : outcome float :=
  i ← int_mul stride idx;
  j ← int_add i k;
  vec_at arr j.

(** [new T[count]] followed by [std::copy] of the whole vector into it: the
    copy runs past the block when the vector holds more than [count]
    elements. *)
Definition new_copy {A : Type} (src : list A) (count : Z) : outcome (list A) :=
  if Z.of_nat (length src) <=? count then Ok src else Undefined BufferOverrun.

(** ** The indexed viewer: [loadOBJ] with deduplication *)

Module Indexed.

Record Mesh : Type := mkMesh {
  vertices : list Vertex;
  indices : list Z;
  vertexCount : Z;
  indexCount : Z
}.

(** The three local containers of [loadOBJ]. *)
Record locals : Type := mkLocals {
  loc_vertices : list Vertex;
  loc_indices : list Z;
  uniqueVertices : gmap Vertex Z
}.

Definition no_locals : locals := mkLocals [] [] ∅.

(** [uniqueVertices.count(k)] *)
Definition count (m : gmap Vertex Z) (k : Vertex) : Z :=
  match m !! k with Some _ => 1 | None => 0 end.

(** [uniqueVertices[k]] as an rvalue: a missing key is inserted with 0. *)
Definition subscript (m : gmap Vertex Z) (k : Vertex) : Z * gmap Vertex Z :=
  match m !! k with
  | Some i => (i, m)
  | None => (0, <[k := 0]> m)
  end.

(** Lines 214-225: the corner's [Vertex]. *)
Definition resolve (attrib : tinyobj.attrib_t) (idx : tinyobj.index_t)
  : outcome Vertex :=
  px ← fetch (tinyobj.vertices attrib) 3 (tinyobj.vertex_index idx) 0;
  py ← fetch (tinyobj.vertices attrib) 3 (tinyobj.vertex_index idx) 1;
  pz ← fetch (tinyobj.vertices attrib) 3 (tinyobj.vertex_index idx) 2;
  n ← (if negb (bool_decide (tinyobj.normals attrib = []))
          && (0 <=? tinyobj.normal_index idx)
       then
         nx ← fetch (tinyobj.normals attrib) 3 (tinyobj.normal_index idx) 0;
         ny ← fetch (tinyobj.normals attrib) 3 (tinyobj.normal_index idx) 1;
         nz ← fetch (tinyobj.normals attrib) 3 (tinyobj.normal_index idx) 2;
         Ok (Vec3 nx ny nz)
       else Ok (Vec3 f0 f0 f1));
  t ← (if negb (bool_decide (tinyobj.texcoords attrib = []))
          && (0 <=? tinyobj.texcoord_index idx)
       then
         tx ← fetch (tinyobj.texcoords attrib) 2 (tinyobj.texcoord_index idx) 0;
         ty ← fetch (tinyobj.texcoords attrib) 2 (tinyobj.texcoord_index idx) 1;
         Ok (Vec2 tx ty)
       else Ok (Vec2 f0 f0));
  Ok (mkVertex (Vec3 px py pz) n t).

(** Lines 227-231: look the vertex up, enter it when new, push its index. *)
Definition add_vertex (st : locals) (vertex : Vertex) : locals :=
  let st1 :=
    if count (uniqueVertices st) vertex =? 0 then
      mkLocals (loc_vertices st ++ [vertex]) (loc_indices st)
        (<[vertex := to_uint32 (Z.of_nat (length (loc_vertices st)))]>
           (uniqueVertices st))
    else st in
  let '(i, m) := subscript (uniqueVertices st1) vertex in
  mkLocals (loc_vertices st1) (loc_indices st1 ++ [i]) m.

(** Body of [for (size_t v = 0; v < 3; v++)]. *)
Definition corner (attrib : tinyobj.attrib_t) (shape : tinyobj.shape_t)
    (index_offset : Z) (st : locals) (v : Z) : outcome locals :=
  idx ← vec_at (tinyobj.indices (tinyobj.mesh shape)) (index_offset + v);
  vertex ← resolve attrib idx;
  Ok (add_vertex st vertex).

(** Body of the loop over [f]; the face's own corner count is not looked at. *)
Definition face (attrib : tinyobj.attrib_t) (shape : tinyobj.shape_t)
    (s : Z * locals) (fv : Z) : outcome (Z * locals) :=
  let '(index_offset, st) := s in
  st' ← for_each (corner attrib shape index_offset) [0; 1; 2] st;
  Ok (index_offset + 3, st').

(** Body of the loop over [shapes]. *)
Definition shape_loop (attrib : tinyobj.attrib_t) (st : locals)
    (shape : tinyobj.shape_t) : outcome locals :=
  s ← for_each (face attrib shape)
        (tinyobj.num_face_vertices (tinyobj.mesh shape)) (0, st);
  Ok (snd s).

(** Lines 237-244. *)
Definition make_mesh (st : locals) : outcome Mesh :=
  let vertexCount := to_uint32 (Z.of_nat (length (loc_vertices st))) in
  let indexCount := to_uint32 (Z.of_nat (length (loc_indices st))) in
  vs ← new_copy (loc_vertices st) vertexCount;
  ixs ← new_copy (loc_indices st) indexCount;
  Ok (mkMesh vs ixs vertexCount indexCount).

Definition loadOBJ (file : tinyobj.parsed) : outcome Mesh :=
  match file with
  | None => Throw "Failed to load OBJ"
  | Some (attrib, shapes) =>
      st ← for_each (shape_loop attrib) shapes no_locals;
      make_mesh st
  end.

End Indexed.

(** ** The plain viewer ([src/main.cpp]): [loadOBJ] without deduplication *)

Module Flat.

Record Mesh : Type := mkMesh {
  vertices : list Vertex;
  vertexCount : Z
}.

(** Lines 243-262: the corner's [Vertex]. *)
Definition resolve (attrib : tinyobj.attrib_t) (idx : tinyobj.index_t)
  : outcome Vertex :=
  px ← fetch (tinyobj.vertices attrib) 3 (tinyobj.vertex_index idx) 0;
  py ← fetch (tinyobj.vertices attrib) 3 (tinyobj.vertex_index idx) 1;
  pz ← fetch (tinyobj.vertices attrib) 3 (tinyobj.vertex_index idx) 2;
  n ← (if negb (bool_decide (tinyobj.normals attrib = []))
          && (0 <=? tinyobj.normal_index idx)
       then
         nx ← fetch (tinyobj.normals attrib) 3 (tinyobj.normal_index idx) 0;
         ny ← fetch (tinyobj.normals attrib) 3 (tinyobj.normal_index idx) 1;
         nz ← fetch (tinyobj.normals attrib) 3 (tinyobj.normal_index idx) 2;
         Ok (Vec3 nx ny nz)
       else Ok (Vec3 f0 f0 f0));
  t ← (if negb (bool_decide (tinyobj.texcoords attrib = []))
          && (0 <=? tinyobj.texcoord_index idx)
       then
         tx ← fetch (tinyobj.texcoords attrib) 2 (tinyobj.texcoord_index idx) 0;
         ty ← fetch (tinyobj.texcoords attrib) 2 (tinyobj.texcoord_index idx) 1;
         Ok (Vec2 tx ty)
       else Ok (Vec2 f0 f0));
  Ok (mkVertex (Vec3 px py pz) n t).

(** Body of [for (size_t v = 0; v < 3; v++)]. *)
Definition corner (attrib : tinyobj.attrib_t) (shape : tinyobj.shape_t)
    (index_offset : Z) (vertices : list Vertex) (v : Z) : outcome (list Vertex) :=
  idx ← vec_at (tinyobj.indices (tinyobj.mesh shape)) (index_offset + v);
  vertex ← resolve attrib idx;
  Ok (vertices ++ [vertex]).

(** Body of the loop over [f], with its triangle check. *)
Definition face (attrib : tinyobj.attrib_t) (shape : tinyobj.shape_t)
    (s : Z * list Vertex) (fv : Z) : outcome (Z * list Vertex) :=
  let '(index_offset, vertices) := s in
  if negb (fv =? 3) then Throw "Non-triangle face detected."
  else
    vertices' ← for_each (corner attrib shape index_offset) [0; 1; 2] vertices;
    Ok (index_offset + fv, vertices').

(** Body of the loop over [shapes]. *)
Definition shape_loop (attrib : tinyobj.attrib_t) (vertices : list Vertex)
    (shape : tinyobj.shape_t) : outcome (list Vertex) :=
  s ← for_each (face attrib shape)
        (tinyobj.num_face_vertices (tinyobj.mesh shape)) (0, vertices);
  Ok (snd s).

(** Lines 270-275. *)
Definition make_mesh (vertices : list Vertex) : outcome Mesh :=
  let vertexCount := to_uint32 (Z.of_nat (length vertices)) in
  vs ← new_copy vertices vertexCount;
  Ok (mkMesh vs vertexCount).

Definition loadOBJ (file : tinyobj.parsed) : outcome Mesh :=
  match file with
  | None => Throw "Failed to load OBJ file."
  | Some (attrib, shapes) =>
      vertices ← for_each (shape_loop attrib) shapes [];
      make_mesh vertices
  end.

End Flat.

(** ** Vocabulary of the specification *)

(** All results of a list of calls, or the first one that is not [Ok]. *)
Fixpoint collect {A : Type} (l : list (outcome A)) : outcome (list A) :=
  match l with
  | [] => Ok []
  | o :: l' => a ← o; l'' ← collect l'; Ok (a :: l'')
  end.

Section Stream.

Variable resolve : tinyobj.attrib_t -> tinyobj.index_t -> outcome Vertex.

(** The corner at position [k] of a shape's index array, resolved. *)
Definition corner_value (attrib : tinyobj.attrib_t) (shape : tinyobj.shape_t)
    (k : Z) : outcome Vertex :=
  idx ← vec_at (tinyobj.indices (tinyobj.mesh shape)) k;
  resolve attrib idx.

(** The corners of one shape in scan order: three per face record. *)
Definition shape_stream (attrib : tinyobj.attrib_t) (shape : tinyobj.shape_t)
  : list (outcome Vertex) :=
  corner_value attrib shape
    <$> seqZ 0 (3 * Z.of_nat (length (tinyobj.num_face_vertices (tinyobj.mesh shape)))).

(** The resolved per-face-corner stream of the whole file. *)
Definition corner_stream (attrib : tinyobj.attrib_t) (shapes : list tinyobj.shape_t)
  : list (outcome Vertex) :=
  concat (shape_stream attrib <$> shapes).

End Stream.

(** Number of face records over all shapes. *)
Definition face_count (shapes : list tinyobj.shape_t) : Z :=
  foldr (fun shape n => Z.of_nat (length (tinyobj.num_face_vertices (tinyobj.mesh shape))) + n)
    0 shapes.

(** The index records a scan of three corners per face reads from a shape. *)
Definition scanned_corners (shape : tinyobj.shape_t) : list tinyobj.index_t :=
  take (3 * length (tinyobj.num_face_vertices (tinyobj.mesh shape)))
    (tinyobj.indices (tinyobj.mesh shape)).

(** [arr[stride * idx + k]] stays inside [arr] for every [k < stride], and
    the index arithmetic stays inside [int]. *)
Definition readable (arr : list float) (stride idx : Z) : bool :=
  (0 <=? idx)
  && (stride * idx + (stride - 1) <? Z.of_nat (length arr))
  && (stride * idx + (stride - 1) <=? INT_MAX).

(** Every read that resolving the corner performs is in range. *)
Definition corner_ok (attrib : tinyobj.attrib_t) (idx : tinyobj.index_t) : bool :=
  readable (tinyobj.vertices attrib) 3 (tinyobj.vertex_index idx)
  && (bool_decide (tinyobj.normals attrib = [])
      || (tinyobj.normal_index idx <? 0)
      || readable (tinyobj.normals attrib) 3 (tinyobj.normal_index idx))
  && (bool_decide (tinyobj.texcoords attrib = [])
      || (tinyobj.texcoord_index idx <? 0)
      || readable (tinyobj.texcoords attrib) 2 (tinyobj.texcoord_index idx)).

(** The index array holds three records per face record, all readable. *)
Definition shape_ok (attrib : tinyobj.attrib_t) (shape : tinyobj.shape_t) : bool :=
  (3 * Z.of_nat (length (tinyobj.num_face_vertices (tinyobj.mesh shape)))
     <=? Z.of_nat (length (tinyobj.indices (tinyobj.mesh shape))))
  && forallb (corner_ok attrib) (scanned_corners shape).

(** What the scan needs of its input to stay inside the source arrays and
    inside the 32-bit counts of [Mesh]. *)
Definition well_formed (attrib : tinyobj.attrib_t) (shapes : list tinyobj.shape_t) : bool :=
  forallb (shape_ok attrib) shapes && (3 * face_count shapes <? 2 ^ 32).

(** Each distinct value once, in the order of its first occurrence. *)
Fixpoint first_occurrences (vs : list Vertex) : list Vertex :=
  match vs with
  | [] => []
  | v :: vs' => v :: filter (fun u => u <> v) (first_occurrences vs')
  end.

(** Replaying an index sequence against a vertex sequence. *)
Definition replay (vertices : list Vertex) (indices : list Z) : list (option Vertex) :=
  (fun i => if 0 <=? i then vertices !! Z.to_nat i else None) <$> indices.

(** The state of the deduplicating scan after a stream of corner values. *)
Definition dedup (vs : list Vertex) : Indexed.locals :=
  foldl Indexed.add_vertex Indexed.no_locals vs.

(** The corner resolution both viewers share, up to the normal they
    substitute when the file has none. *)
Definition resolve_with (fallback : vec3) (attrib : tinyobj.attrib_t)
    (idx : tinyobj.index_t) : outcome Vertex :=
  px ← fetch (tinyobj.vertices attrib) 3 (tinyobj.vertex_index idx) 0;
  py ← fetch (tinyobj.vertices attrib) 3 (tinyobj.vertex_index idx) 1;
  pz ← fetch (tinyobj.vertices attrib) 3 (tinyobj.vertex_index idx) 2;
  n ← (if negb (bool_decide (tinyobj.normals attrib = []))
          && (0 <=? tinyobj.normal_index idx)
       then
         nx ← fetch (tinyobj.normals attrib) 3 (tinyobj.normal_index idx) 0;
         ny ← fetch (tinyobj.normals attrib) 3 (tinyobj.normal_index idx) 1;
         nz ← fetch (tinyobj.normals attrib) 3 (tinyobj.normal_index idx) 2;
         Ok (Vec3 nx ny nz)
       else Ok fallback);
  t ← (if negb (bool_decide (tinyobj.texcoords attrib = []))
          && (0 <=? tinyobj.texcoord_index idx)
       then
         tx ← fetch (tinyobj.texcoords attrib) 2 (tinyobj.texcoord_index idx) 0;
         ty ← fetch (tinyobj.texcoords attrib) 2 (tinyobj.texcoord_index idx) 1;
         Ok (Vec2 tx ty)
       else Ok (Vec2 f0 f0));
  Ok (mkVertex (Vec3 px py pz) n t).

(** Every face record of the shape announces three corners. *)
Definition triangles_only (shape : tinyobj.shape_t) : bool :=
  forallb (fun fv => fv =? 3) (tinyobj.num_face_vertices (tinyobj.mesh shape)).

(** What the reader guarantees of a shape: one index record per announced
    face corner, each of them readable. *)
Definition consistent (attrib : tinyobj.attrib_t) (shape : tinyobj.shape_t) : bool :=
  forallb (fun fv => 0 <=? fv) (tinyobj.num_face_vertices (tinyobj.mesh shape))
  && (Z.of_nat (length (tinyobj.indices (tinyobj.mesh shape)))
        =? foldr Z.add 0 (tinyobj.num_face_vertices (tinyobj.mesh shape)))
  && forallb (corner_ok attrib) (tinyobj.indices (tinyobj.mesh shape)).

(** What the three containers hold after the corner values [vs]. *)
Record dedup_inv (vs : list Vertex) (st : Indexed.locals) : Prop := mk_dedup_inv {
  inv_vertices : Indexed.loc_vertices st = first_occurrences vs;
  inv_map : forall v i,
    Indexed.uniqueVertices st !! v = Some i
    <-> 0 <= i /\ first_occurrences vs !! Z.to_nat i = Some v;
  inv_indices :
    Forall2 (fun v i => Indexed.uniqueVertices st !! v = Some i)
      vs (Indexed.loc_indices st)
}.

(** No scanned corner of the shape falls back: its normal and texture
    coordinate indices are non-negative and in range. *)
Definition no_fallback (attrib : tinyobj.attrib_t) (shape : tinyobj.shape_t) : bool :=
  forallb
    (fun idx =>
       (0 <=? tinyobj.normal_index idx)
       && readable (tinyobj.normals attrib) 3 (tinyobj.normal_index idx)
       && (0 <=? tinyobj.texcoord_index idx)
       && readable (tinyobj.texcoords attrib) 2 (tinyobj.texcoord_index idx))
    (scanned_corners shape).

(** ** Sample inputs *)

(** [2.f] is [0x40000000]. *)
Definition f2 : float := Float x00 x00 x00 x40.

(** Three points and neither normals nor texture coordinates. *)
Definition bare_attrib : tinyobj.attrib_t :=
  tinyobj.mk_attrib [f0; f0; f0;  f1; f0; f0;  f0; f1; f0] [] [].

(** The same points with one normal and two texture coordinates. *)
Definition full_attrib : tinyobj.attrib_t :=
  tinyobj.mk_attrib [f0; f0; f0;  f1; f0; f0;  f0; f1; f0]
    [f0; f1; f0] [f0; f0;  f1; f1].

(** A corner that names a position only. *)
Definition bare_corner (p : Z) : tinyobj.index_t := tinyobj.mk_index p (-1) (-1).

(** One triangle over the three points. *)
Definition triangle : tinyobj.shape_t :=
  tinyobj.mk_shape (tinyobj.mk_mesh [bare_corner 0; bare_corner 1; bare_corner 2] [3]).

(** One triangle whose third corner repeats the first. *)
Definition triangle_aba : tinyobj.shape_t :=
  tinyobj.mk_shape (tinyobj.mk_mesh [bare_corner 0; bare_corner 1; bare_corner 0] [3]).

(** Two triangles sharing an edge, with normals and texture coordinates. *)
Definition two_triangles : tinyobj.shape_t :=
  tinyobj.mk_shape (tinyobj.mk_mesh
    [tinyobj.mk_index 0 0 0; tinyobj.mk_index 1 0 1; tinyobj.mk_index 2 0 0;
     tinyobj.mk_index 2 0 0; tinyobj.mk_index 1 0 1; tinyobj.mk_index 0 0 1]
    [3; 3]).

(** A face record of four corners. *)
Definition quad : tinyobj.shape_t :=
  tinyobj.mk_shape (tinyobj.mk_mesh
    [bare_corner 0; bare_corner 1; bare_corner 2; bare_corner 0] [4]).

(** A triangle whose second corner names the eighth of three points. *)
Definition stray_position : tinyobj.shape_t :=
  tinyobj.mk_shape (tinyobj.mk_mesh [bare_corner 0; bare_corner 7; bare_corner 2] [3]).

(** A triangle whose first corner names the fifth of one normal. *)
Definition stray_normal : tinyobj.shape_t :=
  tinyobj.mk_shape (tinyobj.mk_mesh
    [tinyobj.mk_index 0 4 0; tinyobj.mk_index 1 0 1; tinyobj.mk_index 2 0 0] [3]).

(** Two vertices at the origin, one with [x = 0.f] and one with [x = -0.f]. *)
Definition origin : Vertex := mkVertex (Vec3 f0 f0 f0) (Vec3 f0 f0 f1) (Vec2 f0 f0).
Definition origin_neg0 : Vertex := mkVertex (Vec3 fneg0 f0 f0) (Vec3 f0 f0 f1) (Vec2 f0 f0).

(** ** The matrix helpers (both files) *)

(** [-1.f] is [0xBF800000], [0.5f] is [0x3F000000]. *)
Definition fminus1 : float := Float x00 x00 x80 xbf.
Definition fhalf : float := Float x00 x00 x00 x3f.

(** Unary minus on a float changes its sign bit and nothing else. *)
Definition flip_sign (b : byte) : byte :=
  default b (Byte.of_N (N.lxor (Byte.to_N b) 128)).

Definition fneg (f : float) : float :=
  Float (byte0 f) (byte1 f) (byte2 f) (flip_sign (byte3 f)).

(** [m[i] = v] through a [float*]; [m] is the array from the pointer on.
    Writing past its end is undefined. *)
Definition store (m : list float) (i : Z) (v : float) : outcome (list float) :=
  if (0 <=? i) && (i <? Z.of_nat (length m))
  then Ok (<[Z.to_nat i := v]> m)
  else Undefined BufferOverrun.

Definition mat4_identity (m : list float) : outcome (list float) :=
  for_each (fun m i => store m i (if Z.rem i 5 =? 0 then f1 else f0)) (seqZ 0 16) m.

Definition mat4_translate (m : list float) (x y z : float) : outcome (list float) :=
  m ← mat4_identity m;
  m ← store m 12 x;
  m ← store m 13 y;
  store m 14 z.

Section FloatArithmetic.

(** [<cmath>] and the arithmetic of [float], which the helpers only call. *)
Variables cosf sinf tanf : float -> float.
Variables fadd fsub fmul fdiv : float -> float -> float.

Definition mat4_rotate_y (m : list float) (angle : float) : outcome (list float) :=
  m ← mat4_identity m;
  let c := cosf angle in
  let s := sinf angle in
  m ← store m 0 c;
  m ← store m 2 s;
  m ← store m 8 (fneg s);
  store m 10 c.

Definition mat4_perspective (m : list float) (fovy aspect znear zfar : float)
  : outcome (list float) :=
  m ← mat4_identity m;
  let f := fdiv f1 (tanf (fmul fovy fhalf)) in
  m ← store m 0 (fdiv f aspect);
  m ← store m 5 f;
  m ← store m 10 (fdiv (fadd zfar znear) (fsub znear zfar));
  m ← store m 11 fminus1;
  m ← store m 14 (fdiv (fmul (fmul f2 zfar) znear) (fsub znear zfar));
  store m 15 f0.

End FloatArithmetic.

(** The identity matrix as sixteen floats. *)
Definition identity16 : list float :=
  [f1; f0; f0; f0;  f0; f1; f0; f0;  f0; f0; f1; f0;  f0; f0; f0; f1].

(** ** [std::hash<Vertex>] *)

(** [(size_t) n] on a 64-bit target. *)
Definition to_size_t (n : Z) : Z := n mod 2 ^ 64.

Section Hash.

(** [std::hash<float>], which the standard library supplies. *)
Variable hash_float : float -> Z.

Definition hash_Vertex (v : Vertex) : Z :=
  let h1 := Z.lxor (Z.lxor (hash_float (x (position v))) (hash_float (y (position v))))
              (hash_float (z (position v))) in
  let h2 := Z.lxor (Z.lxor (hash_float (x (normal v))) (hash_float (y (normal v))))
              (hash_float (z (normal v))) in
  let h3 := Z.lxor (hash_float (x2 (texcoords v))) (hash_float (y2 (texcoords v))) in
  Z.lxor (Z.lxor h1 (to_size_t (Z.shiftl h2 1))) (to_size_t (Z.shiftl h3 2)).

End Hash.

(** ** Ownership of the mesh arrays: [new[]], [delete[]] and [freeMesh] *)

(** What a [new[]] block of the viewers holds. *)
Inductive array : Type :=
  | VertexArray (elements : list Vertex)
  | IndexArray (elements : list Z).

(** The free store: the live [new[]] blocks by address.  A pointer is an
    address or [nullptr] ([None]). *)
Abbreviation heap := (gmap positive array).

(** [new T[n]] with its contents filled in: some address not in use. *)
Definition new_array (h : heap) (block : array) : positive * heap :=
  let p := fresh (dom h) in (p, <[p := block]> h).

(** [delete[] p]: nothing for [nullptr]; [None] stands for the undefined
    behaviour of deleting what is not a live block. *)
Definition delete_array (p : option positive) (h : heap) : option heap :=
  match p with
  | None => Some h
  | Some a =>
      match h !! a with
      | Some _ => Some (delete a h)
      | None => None
      end
  end.

Module IndexedHeap.

(** [struct Mesh] of the indexed viewer, with its pointers as pointers. *)
Record Mesh : Type := mkMesh {
  vertices : option positive;
  indices : option positive;
  vertexCount : Z;
  indexCount : Z
}.

(** [loadOBJ], placing the two arrays of the mesh on the free store. *)
Definition loadOBJ (file : tinyobj.parsed) (h : heap) : outcome (Mesh * heap) :=
  m ← Indexed.loadOBJ file;
  let '(pv, h1) := new_array h (VertexArray (Indexed.vertices m)) in
  let '(pi, h2) := new_array h1 (IndexArray (Indexed.indices m)) in
  Ok (mkMesh (Some pv) (Some pi) (Indexed.vertexCount m) (Indexed.indexCount m), h2).

Definition freeMesh (mesh : Mesh) (h : heap) : option (Mesh * heap) :=
  h ← delete_array (vertices mesh) h;
  h ← delete_array (indices mesh) h;
  Some (mkMesh None None 0 0, h).

(** The arrays a mesh points to, when both are live and of the right kind. *)
Definition contents (mesh : Mesh) (h : heap) : option (list Vertex * list Z) :=
  pv ← vertices mesh;
  pi ← indices mesh;
  match h !! pv, h !! pi with
  | Some (VertexArray vs), Some (IndexArray ixs) => Some (vs, ixs)
  | _, _ => None
  end.

End IndexedHeap.

Module FlatHeap.

(** [struct Mesh] of the plain viewer, with its pointer as a pointer. *)
Record Mesh : Type := mkMesh {
  vertices : option positive;
  vertexCount : Z
}.

Definition loadOBJ (file : tinyobj.parsed) (h : heap) : outcome (Mesh * heap) :=
  m ← Flat.loadOBJ file;
  let '(pv, h1) := new_array h (VertexArray (Flat.vertices m)) in
  Ok (mkMesh (Some pv) (Flat.vertexCount m), h1).

Definition freeMesh (mesh : Mesh) (h : heap) : option (Mesh * heap) :=
  h ← delete_array (vertices mesh) h;
  Some (mkMesh None 0, h).

End FlatHeap.

(** Arithmetic and trigonometry stand-ins for evaluating the matrix helpers
    on sample arguments: every function returns its first argument. *)
Definition sample_unary (a : float) : float := a.
Definition sample_binary (a b : float) : float := a.

(** A hash of floats for evaluating [hash_Vertex]: the bit pattern. *)
Definition sample_hash_float (f : float) : Z := float_bits f.

(** ** Basic facts about outcomes and loops *)

#[export] Instance Ok_inj {A : Type} : Inj (=) (=) (@Ok A).
Proof. intros a b H. by injection H. Qed.

Lemma bind_Ok {A B : Type} (m : outcome A) (f : A -> outcome B) (b : B) :
  m ≫= f = Ok b <-> exists a, m = Ok a /\ f a = Ok b.
Proof.
  destruct m as [a| |]; simpl; split.
  - intros H. exists a. done.
  - intros (a' & [= <-] & H). done.
  - discriminate.
  - intros (a' & [=] & _).
  - discriminate.
  - intros (a' & [=] & _).
Qed.

Lemma bind_assoc {A B C : Type} (m : outcome A) (f : A -> outcome B) (g : B -> outcome C) :
  (m ≫= f) ≫= g = m ≫= (fun a => f a ≫= g).
Proof. by destruct m. Qed.

Lemma bind_ext {A B : Type} (m : outcome A) (f g : A -> outcome B) :
  (forall a, f a = g a) -> m ≫= f = m ≫= g.
Proof. intros H. destruct m; simpl; auto. Qed.

Lemma bind_ret {A : Type} (m : outcome A) : m ≫= Ok = m.
Proof. by destruct m. Qed.

Lemma for_each_app {A S : Type} (body : S -> A -> outcome S) (l1 l2 : list A) (s : S) :
  for_each body (l1 ++ l2) s = for_each body l1 s ≫= for_each body l2.
Proof.
  revert s. induction l1 as [|x l1 IH]; intros s; simpl; [done|].
  rewrite bind_assoc. apply bind_ext. intros s'. apply IH.
Qed.

Lemma collect_app {A : Type} (l1 l2 : list (outcome A)) :
  collect (l1 ++ l2) = xs ← collect l1; ys ← collect l2; Ok (xs ++ ys).
Proof.
  induction l1 as [|o l1 IH]; simpl.
  - by destruct (collect l2).
  - destruct o as [a| |]; simpl; [|done|done].
    rewrite IH. destruct (collect l1) as [xs| |]; simpl; [|done|done].
    by destruct (collect l2).
Qed.

Lemma collect_Ok {A : Type} (l : list (outcome A)) (xs : list A) :
  collect l = Ok xs <-> l = Ok <$> xs.
Proof.
  revert xs. induction l as [|o l IH]; intros xs; simpl.
  - split; [intros [= <-]; done | by destruct xs].
  - destruct o as [a| |]; simpl.
    + destruct (collect l) as [ys| |] eqn:E; simpl.
      * split.
        -- intros [= <-]. simpl. f_equal. by apply IH.
        -- destruct xs as [|x xs]; [done|]. intros [= -> H].
           apply IH in H. by injection H as ->.
      * split; [done|]. destruct xs as [|x xs]; [done|]. intros [= -> H].
        apply IH in H. done.
      * split; [done|]. destruct xs as [|x xs]; [done|]. intros [= -> H].
        apply IH in H. done.
    + split; [done|]. by destruct xs.
    + split; [done|]. by destruct xs.
Qed.

Lemma collect_is_Ok {A : Type} (l : list (outcome A)) :
  is_Ok (collect l) = forallb is_Ok l.
Proof.
  induction l as [|o l IH]; simpl; [done|].
  destruct o; simpl; [|done|done].
  rewrite <- IH. by destruct (collect l).
Qed.

(** ** First occurrences *)

Lemma elem_of_first_occurrences (vs : list Vertex) (v : Vertex) :
  v ∈ first_occurrences vs <-> v ∈ vs.
Proof.
  induction vs as [|u vs IH]; simpl; [done|].
  rewrite !elem_of_cons, list_elem_of_filter, IH.
  destruct (decide (v = u)); naive_solver.
Qed.

Lemma NoDup_first_occurrences (vs : list Vertex) : NoDup (first_occurrences vs).
Proof.
  induction vs as [|u vs IH]; simpl; [constructor|].
  constructor.
  - rewrite list_elem_of_filter. naive_solver.
  - by apply NoDup_filter.
Qed.

Lemma first_occurrences_snoc (vs : list Vertex) (v : Vertex) :
  first_occurrences (vs ++ [v])
  = if decide (v ∈ vs) then first_occurrences vs else first_occurrences vs ++ [v].
Proof.
  induction vs as [|u vs IH]; simpl.
  - done.
  - rewrite IH. destruct (decide (v = u)) as [->|Hne].
    + rewrite (decide_True (P := u ∈ u :: vs)); [|by left].
      destruct (decide (u ∈ vs)); [done|].
      rewrite filter_app, filter_singleton_False; [by rewrite app_nil_r|done|tauto].
    + destruct (decide (v ∈ vs)) as [Hin|Hnin].
      * rewrite decide_True; [done|]. by right.
      * rewrite decide_False; [|rewrite elem_of_cons; tauto].
        by rewrite filter_app, filter_singleton_True.
Qed.

Lemma length_first_occurrences (vs : list Vertex) :
  (length (first_occurrences vs) <= length vs)%nat.
Proof.
  induction vs as [|u vs IH]; simpl; [done|].
  pose proof (length_filter (fun w => w <> u) (first_occurrences vs)). lia.
Qed.

Lemma first_occurrences_NoDup (vs : list Vertex) :
  NoDup vs -> first_occurrences vs = vs.
Proof.
  induction vs as [|u vs IH]; simpl; [done|].
  intros [Hu Hvs]%NoDup_cons. rewrite (IH Hvs). f_equal.
  clear IH Hvs. induction vs as [|w vs IH]; [done|].
  apply not_elem_of_cons in Hu as [Hne Hu].
  rewrite filter_cons_True; [|congruence]. by rewrite IH.
Qed.

Lemma first_occurrences_full (vs : list Vertex) :
  length (first_occurrences vs) = length vs <-> NoDup vs.
Proof.
  split.
  - induction vs as [|u vs IH]; simpl; [constructor|].
    intros Hlen.
    pose proof (length_filter (fun w => w <> u) (first_occurrences vs)) as Hf.
    pose proof (length_first_occurrences vs) as Hl.
    constructor.
    + intros Hin. apply elem_of_first_occurrences in Hin.
      pose proof (length_filter_lt (fun w => w <> u) _ _ Hin) as Hlt.
      assert (~ u <> u) as Hnn by naive_solver.
      specialize (Hlt Hnn). lia.
    + apply IH. lia.
  - intros H. by rewrite first_occurrences_NoDup.
Qed.

(** ** The deduplication step and its invariant *)

Lemma add_vertex_seen (st : Indexed.locals) (v : Vertex) (i : Z) :
  Indexed.uniqueVertices st !! v = Some i ->
  Indexed.add_vertex st v
  = Indexed.mkLocals (Indexed.loc_vertices st) (Indexed.loc_indices st ++ [i])
      (Indexed.uniqueVertices st).
Proof.
  intros H. unfold Indexed.add_vertex, Indexed.count, Indexed.subscript.
  rewrite H. simpl. by rewrite H.
Qed.

Lemma add_vertex_new (st : Indexed.locals) (v : Vertex) :
  Indexed.uniqueVertices st !! v = None ->
  let n := to_uint32 (Z.of_nat (length (Indexed.loc_vertices st))) in
  Indexed.add_vertex st v
  = Indexed.mkLocals (Indexed.loc_vertices st ++ [v]) (Indexed.loc_indices st ++ [n])
      (<[v := n]> (Indexed.uniqueVertices st)).
Proof.
  intros H n. unfold Indexed.add_vertex, Indexed.count, Indexed.subscript.
  rewrite H. simpl. by rewrite lookup_insert_eq.
Qed.

Lemma dedup_snoc (vs : list Vertex) (v : Vertex) :
  dedup (vs ++ [v]) = Indexed.add_vertex (dedup vs) v.
Proof. unfold dedup. by rewrite foldl_snoc. Qed.

Lemma to_uint32_small (n : Z) : 0 <= n < 2 ^ 32 -> to_uint32 n = n.
Proof. intros H. unfold to_uint32. by apply Z.mod_small. Qed.

Lemma inv_seen_iff (vs : list Vertex) (st : Indexed.locals) (v : Vertex) :
  dedup_inv vs st -> is_Some (Indexed.uniqueVertices st !! v) <-> v ∈ vs.
Proof.
  intros [_ Hmap _]. rewrite <- elem_of_first_occurrences. split.
  - intros [i Hi]. apply Hmap in Hi as [_ Hi]. by eapply list_elem_of_lookup_2.
  - intros [k Hk]%list_elem_of_lookup_1. exists (Z.of_nat k).
    apply Hmap. rewrite Nat2Z.id. split; [lia|done].
Qed.

Lemma dedup_inv_step (vs : list Vertex) (st : Indexed.locals) (v : Vertex) :
  Z.of_nat (length vs) < 2 ^ 32 ->
  dedup_inv vs st -> dedup_inv (vs ++ [v]) (Indexed.add_vertex st v).
Proof.
  intros Hlen Hinv. pose proof (inv_seen_iff _ _ v Hinv) as Hseen.
  destruct Hinv as [Hv Hmap Hidx].
  destruct (Indexed.uniqueVertices st !! v) as [i|] eqn:E.
  - rewrite (add_vertex_seen _ _ _ E).
    assert (v ∈ vs) as Hin by (apply Hseen; eauto).
    constructor; simpl; rewrite ?first_occurrences_snoc, ?decide_True by done.
    + done.
    + done.
    + apply Forall2_app; [done|]. by constructor.
  - rewrite (add_vertex_new _ _ E).
    assert (v ∉ vs) as Hnin by (intros Hin; apply Hseen in Hin as [? ?]; done).
    pose proof (length_first_occurrences vs) as Hle.
    rewrite Hv, to_uint32_small by lia.
    constructor; simpl; rewrite ?first_occurrences_snoc, ?decide_False by done.
    + done.
    + intros u i. destruct (decide (v = u)) as [<-|Hne].
      * rewrite lookup_insert_eq. split.
        -- intros [= <-]. split; [lia|]. rewrite Nat2Z.id.
           by rewrite lookup_app_r, Nat.sub_diag.
        -- intros [Hi Hl]. f_equal.
           destruct (decide (Z.to_nat i < length (first_occurrences vs))%nat) as [Hlt|Hge].
           ++ rewrite lookup_app_l in Hl by done.
              apply list_elem_of_lookup_2 in Hl.
              rewrite elem_of_first_occurrences in Hl. done.
           ++ apply lookup_lt_Some in Hl. rewrite length_app in Hl. simpl in Hl. lia.
      * rewrite lookup_insert_ne by done. rewrite Hmap.
        split; intros [Hi Hl]; (split; [done|]).
        -- rewrite lookup_app_l; [done|]. by eapply lookup_lt_Some.
        -- destruct (decide (Z.to_nat i < length (first_occurrences vs))%nat) as [Hlt|Hge].
           ++ by rewrite lookup_app_l in Hl.
           ++ rewrite lookup_app_r in Hl by lia.
              destruct (Z.to_nat i - length (first_occurrences vs))%nat; [|done].
              simpl in Hl. congruence.
    + apply Forall2_app.
      * apply Forall2_same_length_lookup. split; [by eapply Forall2_length|].
        intros k u j Hu Hj. rewrite lookup_insert_ne.
        -- by pose proof (Forall2_lookup_lr _ _ _ _ _ _ Hidx Hu Hj).
        -- intros <-. apply Hnin. by eapply list_elem_of_lookup_2.
      * constructor; [|constructor]. by rewrite lookup_insert_eq.
Qed.

Lemma dedup_inv_nil : dedup_inv [] (dedup []).
Proof.
  constructor; simpl; [done| |constructor].
  intros v i. rewrite lookup_empty. split; [done|]. by intros [_ ?].
Qed.

Lemma dedup_inv_holds (vs : list Vertex) :
  Z.of_nat (length vs) <= 2 ^ 32 -> dedup_inv vs (dedup vs).
Proof.
  induction vs as [|v vs IH] using rev_ind; intros Hlen.
  - apply dedup_inv_nil.
  - rewrite dedup_snoc. rewrite length_app in Hlen. simpl in Hlen.
    apply dedup_inv_step; [lia|]. apply IH. lia.
Qed.

Lemma dedup_length_indices (vs : list Vertex) :
  length (Indexed.loc_indices (dedup vs)) = length vs.
Proof.
  induction vs as [|v vs IH] using rev_ind; [done|].
  rewrite dedup_snoc, length_app. simpl.
  unfold Indexed.add_vertex, Indexed.subscript.
  repeat (case_match; simpl); rewrite length_app; simpl; lia.
Qed.

(** ** Reading the source arrays *)

Lemma int_result_Ok (n r : Z) :
  int_result n = Ok r <-> r = n /\ INT_MIN <= n <= INT_MAX.
Proof.
  unfold int_result.
  destruct (INT_MIN <=? n) eqn:E1; destruct (n <=? INT_MAX) eqn:E2; simpl;
    split; try discriminate; try (intros [= <-]; split; [done|lia]);
    try (intros [-> ?]; done); intros [-> ?]; lia.
Qed.

Lemma vec_at_Ok {A : Type} (v : list A) (i : Z) (a : A) :
  vec_at v i = Ok a <-> 0 <= i /\ v !! Z.to_nat i = Some a.
Proof.
  unfold vec_at. destruct (0 <=? i) eqn:E.
  - destruct (v !! Z.to_nat i) as [b|]; split.
    + intros [= <-]. split; [lia|done].
    + by intros [_ [= <-]].
    + discriminate.
    + by intros [_ ?].
  - split; [discriminate|]. intros [? _]. lia.
Qed.

Lemma vec_at_in_range {A : Type} (v : list A) (i : Z) :
  0 <= i < Z.of_nat (length v) -> exists a, vec_at v i = Ok a.
Proof.
  intros H. destruct (lookup_lt_is_Some_2 v (Z.to_nat i)) as [a Ha]; [lia|].
  exists a. apply vec_at_Ok. split; [lia|done].
Qed.

Lemma vec_at_no_throw {A : Type} (v : list A) (i : Z) (what : string) :
  vec_at v i <> Throw what.
Proof. unfold vec_at. repeat case_match; done. Qed.

Lemma fetch_Ok (arr : list float) (stride idx k : Z) (v : float) :
  fetch arr stride idx k = Ok v
  <-> INT_MIN <= stride * idx <= INT_MAX
      /\ INT_MIN <= stride * idx + k <= INT_MAX
      /\ 0 <= stride * idx + k
      /\ arr !! Z.to_nat (stride * idx + k) = Some v.
Proof.
  unfold fetch, int_mul, int_add. rewrite bind_Ok. split.
  - intros (i & Hi & H). apply int_result_Ok in Hi as [-> Hi].
    apply bind_Ok in H as (j & Hj & H). apply int_result_Ok in Hj as [-> Hj].
    apply vec_at_Ok in H. tauto.
  - intros (H1 & H2 & H3 & H4). exists (stride * idx). split.
    + by apply int_result_Ok.
    + apply bind_Ok. exists (stride * idx + k). split.
      * by apply int_result_Ok.
      * by apply vec_at_Ok.
Qed.

Lemma fetch_no_throw (arr : list float) (stride idx k : Z) (what : string) :
  fetch arr stride idx k <> Throw what.
Proof.
  unfold fetch, int_mul, int_add, int_result.
  repeat (case_match; simpl); try done. apply vec_at_no_throw.
Qed.

Lemma fetch_readable (arr : list float) (stride idx k : Z) :
  readable arr stride idx = true -> 0 <= k < stride ->
  exists v, fetch arr stride idx k = Ok v.
Proof.
  unfold readable. intros H Hk.
  apply andb_prop in H as [H H3]. apply andb_prop in H as [H1 H2].
  apply Z.leb_le in H1, H3. apply Z.ltb_lt in H2.
  assert (0 <= stride * idx) by nia.
  destruct (lookup_lt_is_Some_2 arr (Z.to_nat (stride * idx + k))) as [v Hv]; [lia|].
  exists v. apply fetch_Ok. unfold INT_MIN. repeat split; try lia; done.
Qed.

(** ** Resolving a corner *)

Lemma Indexed_resolve_eq : Indexed.resolve = resolve_with (Vec3 f0 f0 f1).
Proof. reflexivity. Qed.

Lemma Flat_resolve_eq : Flat.resolve = resolve_with (Vec3 f0 f0 f0).
Proof. reflexivity. Qed.

Lemma readable_fetch_0 (arr : list float) (idx : Z) (v0 v2 : float) :
  fetch arr 3 idx 0 = Ok v0 -> fetch arr 3 idx 2 = Ok v2 -> readable arr 3 idx = true.
Proof.
  intros (_ & _ & H0 & _)%fetch_Ok (_ & H1 & _ & H2%lookup_lt_Some)%fetch_Ok.
  unfold readable. rewrite !andb_true_iff, !Z.leb_le, Z.ltb_lt. lia.
Qed.

Lemma readable_fetch_1 (arr : list float) (idx : Z) (v0 v1 : float) :
  fetch arr 2 idx 0 = Ok v0 -> fetch arr 2 idx 1 = Ok v1 -> readable arr 2 idx = true.
Proof.
  intros (_ & _ & H0 & _)%fetch_Ok (_ & H1 & _ & H2%lookup_lt_Some)%fetch_Ok.
  unfold readable. rewrite !andb_true_iff, !Z.leb_le, Z.ltb_lt. lia.
Qed.

Lemma resolve_with_Ok_inv (fb : vec3) (a : tinyobj.attrib_t) (idx : tinyobj.index_t)
    (v : Vertex) :
  resolve_with fb a idx = Ok v -> corner_ok a idx = true.
Proof.
  unfold resolve_with, corner_ok. intros H.
  apply bind_Ok in H as (px & Hpx & H). apply bind_Ok in H as (py & Hpy & H).
  apply bind_Ok in H as (pz & Hpz & H). apply bind_Ok in H as (n & Hn & H).
  apply bind_Ok in H as (t & Ht & _).
  rewrite (readable_fetch_0 _ _ _ _ Hpx Hpz). simpl.
  apply andb_true_iff. split.
  - destruct (bool_decide (tinyobj.normals a = [])); [done|]. simpl in *.
    destruct (0 <=? tinyobj.normal_index idx) eqn:E.
    + apply bind_Ok in Hn as (nx & Hnx & Hn). apply bind_Ok in Hn as (ny & Hny & Hn).
      apply bind_Ok in Hn as (nz & Hnz & _).
      rewrite (readable_fetch_0 _ _ _ _ Hnx Hnz). apply orb_true_r.
    + apply Z.leb_gt in E. apply Z.ltb_lt in E. by rewrite E.
  - destruct (bool_decide (tinyobj.texcoords a = [])); [done|]. simpl in *.
    destruct (0 <=? tinyobj.texcoord_index idx) eqn:E.
    + apply bind_Ok in Ht as (tx & Htx & Ht). apply bind_Ok in Ht as (ty & Hty & _).
      rewrite (readable_fetch_1 _ _ _ _ Htx Hty). apply orb_true_r.
    + apply Z.leb_gt in E. apply Z.ltb_lt in E. by rewrite E.
Qed.

Lemma resolve_with_ok (fb : vec3) (a : tinyobj.attrib_t) (idx : tinyobj.index_t) :
  corner_ok a idx = true -> exists v, resolve_with fb a idx = Ok v.
Proof.
  unfold resolve_with, corner_ok. intros H.
  apply andb_prop in H as [H Ht]. apply andb_prop in H as [Hp Hn].
  destruct (fetch_readable _ _ _ 0 Hp) as [px ->]; [lia|].
  destruct (fetch_readable _ _ _ 1 Hp) as [py ->]; [lia|].
  destruct (fetch_readable _ _ _ 2 Hp) as [pz ->]; [lia|]. simpl.
  assert (exists n,
    (if negb (bool_decide (tinyobj.normals a = [])) && (0 <=? tinyobj.normal_index idx)
     then
       nx ← fetch (tinyobj.normals a) 3 (tinyobj.normal_index idx) 0;
       ny ← fetch (tinyobj.normals a) 3 (tinyobj.normal_index idx) 1;
       nz ← fetch (tinyobj.normals a) 3 (tinyobj.normal_index idx) 2;
       Ok (Vec3 nx ny nz)
     else Ok fb) = Ok n) as [n ->].
  { destruct (bool_decide (tinyobj.normals a = [])); simpl; [eauto|].
    destruct (0 <=? tinyobj.normal_index idx) eqn:E; [|eauto].
    apply Z.leb_le in E. simpl in Hn.
    destruct (tinyobj.normal_index idx <? 0) eqn:E'; [apply Z.ltb_lt in E'; lia|].
    simpl in Hn.
    destruct (fetch_readable _ _ _ 0 Hn) as [nx ->]; [lia|].
    destruct (fetch_readable _ _ _ 1 Hn) as [ny ->]; [lia|].
    destruct (fetch_readable _ _ _ 2 Hn) as [nz ->]; [lia|]. simpl. eauto. }
  assert (exists t,
    (if negb (bool_decide (tinyobj.texcoords a = [])) && (0 <=? tinyobj.texcoord_index idx)
     then
       tx ← fetch (tinyobj.texcoords a) 2 (tinyobj.texcoord_index idx) 0;
       ty ← fetch (tinyobj.texcoords a) 2 (tinyobj.texcoord_index idx) 1;
       Ok (Vec2 tx ty)
     else Ok (Vec2 f0 f0)) = Ok t) as [t ->].
  { destruct (bool_decide (tinyobj.texcoords a = [])); simpl; [eauto|].
    destruct (0 <=? tinyobj.texcoord_index idx) eqn:E; [|eauto].
    apply Z.leb_le in E. simpl in Ht.
    destruct (tinyobj.texcoord_index idx <? 0) eqn:E'; [apply Z.ltb_lt in E'; lia|].
    simpl in Ht.
    destruct (fetch_readable _ _ _ 0 Ht) as [tx ->]; [lia|].
    destruct (fetch_readable _ _ _ 1 Ht) as [ty ->]; [lia|]. simpl. eauto. }
  simpl. eauto.
Qed.

Lemma resolve_with_no_throw (fb : vec3) (a : tinyobj.attrib_t) (idx : tinyobj.index_t)
    (what : string) :
  resolve_with fb a idx <> Throw what.
Proof.
  unfold resolve_with.
  repeat match goal with
  | |- context [fetch ?arr ?s ?i ?k] =>
      let E := fresh "E" in
      destruct (fetch arr s i k) eqn:E; simpl;
      [ | by apply fetch_no_throw in E | done ]
  | |- context [if ?b then _ else _] => destruct b; simpl
  end; done.
Qed.

Lemma resolve_with_is_Ok (fb : vec3) (a : tinyobj.attrib_t) (idx : tinyobj.index_t) :
  is_Ok (resolve_with fb a idx) = corner_ok a idx.
Proof.
  destruct (corner_ok a idx) eqn:E.
  - by destruct (resolve_with_ok fb _ _ E) as [v ->].
  - destruct (resolve_with fb a idx) as [v| |] eqn:E'; [|done|done].
    apply resolve_with_Ok_inv in E'. congruence.
Qed.

Lemma resolve_with_normal_fallback (fb : vec3) (a : tinyobj.attrib_t)
    (idx : tinyobj.index_t) (v : Vertex) :
  tinyobj.normals a = [] -> resolve_with fb a idx = Ok v -> normal v = fb.
Proof.
  unfold resolve_with. intros Hn H. rewrite (bool_decide_eq_true_2 _ Hn) in H.
  simpl in H.
  apply bind_Ok in H as (px & _ & H). apply bind_Ok in H as (py & _ & H).
  apply bind_Ok in H as (pz & _ & H). apply bind_Ok in H as (t & _ & H).
  by injection H as <-.
Qed.

Lemma resolve_with_texcoord_fallback (fb : vec3) (a : tinyobj.attrib_t)
    (idx : tinyobj.index_t) (v : Vertex) :
  tinyobj.texcoords a = [] -> resolve_with fb a idx = Ok v -> texcoords v = Vec2 f0 f0.
Proof.
  unfold resolve_with. intros Ht H. rewrite (bool_decide_eq_true_2 _ Ht) in H.
  simpl in H.
  apply bind_Ok in H as (px & _ & H). apply bind_Ok in H as (py & _ & H).
  apply bind_Ok in H as (pz & _ & H). apply bind_Ok in H as (n & _ & H).
  by injection H as <-.
Qed.

Lemma resolve_with_no_fallback (fb fb' : vec3) (a : tinyobj.attrib_t)
    (idx : tinyobj.index_t) :
  tinyobj.normals a <> [] -> 0 <= tinyobj.normal_index idx ->
  resolve_with fb a idx = resolve_with fb' a idx.
Proof.
  intros Hn Hi. unfold resolve_with.
  rewrite (bool_decide_eq_false_2 _ Hn). apply Z.leb_le in Hi. rewrite Hi. done.
Qed.

(** ** The scan of the indexed viewer, as a fold over the corner stream *)

Lemma seqZ_3 (off : Z) : seqZ off 3 = [off + 0; off + 1; off + 2].
Proof. unfold seqZ. simpl. f_equal; [lia|]. f_equal; [lia|]. f_equal. lia. Qed.

Lemma seqZ_faces (off : Z) (n : nat) :
  seqZ off (3 * Z.of_nat (S n)) = seqZ off 3 ++ seqZ (off + 3) (3 * Z.of_nat n).
Proof.
  replace (3 * Z.of_nat (S n)) with (3 + 3 * Z.of_nat n) by lia.
  rewrite seqZ_app by lia. done.
Qed.

Lemma corner_stream_cons (R : tinyobj.attrib_t -> tinyobj.index_t -> outcome Vertex)
    (a : tinyobj.attrib_t) (shape : tinyobj.shape_t) (shapes : list tinyobj.shape_t) :
  corner_stream R a (shape :: shapes) = shape_stream R a shape ++ corner_stream R a shapes.
Proof. reflexivity. Qed.

Lemma length_shape_stream (R : tinyobj.attrib_t -> tinyobj.index_t -> outcome Vertex)
    (a : tinyobj.attrib_t) (shape : tinyobj.shape_t) :
  Z.of_nat (length (shape_stream R a shape))
  = 3 * Z.of_nat (length (tinyobj.num_face_vertices (tinyobj.mesh shape))).
Proof. unfold shape_stream. rewrite length_fmap, length_seqZ. lia. Qed.

Lemma length_corner_stream (R : tinyobj.attrib_t -> tinyobj.index_t -> outcome Vertex)
    (a : tinyobj.attrib_t) (shapes : list tinyobj.shape_t) :
  Z.of_nat (length (corner_stream R a shapes)) = 3 * face_count shapes.
Proof.
  induction shapes as [|shape shapes IH]; [done|].
  rewrite corner_stream_cons, length_app, Nat2Z.inj_add, IH, length_shape_stream.
  simpl. lia.
Qed.

Lemma Indexed_corner_eq (a : tinyobj.attrib_t) (shape : tinyobj.shape_t)
    (off : Z) (st : Indexed.locals) (v : Z) :
  Indexed.corner a shape off st v
  = x ← corner_value Indexed.resolve a shape (off + v); Ok (Indexed.add_vertex st x).
Proof. unfold Indexed.corner, corner_value. by rewrite bind_assoc. Qed.

Lemma Indexed_face_eq (a : tinyobj.attrib_t) (shape : tinyobj.shape_t)
    (off : Z) (st : Indexed.locals) (fv : Z) :
  Indexed.face a shape (off, st) fv
  = vs ← collect (corner_value Indexed.resolve a shape <$> seqZ off 3);
    Ok (off + 3, foldl Indexed.add_vertex st vs).
Proof.
  unfold Indexed.face. rewrite seqZ_3. simpl. rewrite !Indexed_corner_eq.
  destruct (corner_value Indexed.resolve a shape (off + 0)); simpl; [|done|done].
  rewrite !Indexed_corner_eq.
  destruct (corner_value Indexed.resolve a shape (off + 1)); simpl; [|done|done].
  rewrite !Indexed_corner_eq.
  by destruct (corner_value Indexed.resolve a shape (off + 2)).
Qed.

Lemma Indexed_faces_eq (a : tinyobj.attrib_t) (shape : tinyobj.shape_t)
    (nfv : list Z) (off : Z) (st : Indexed.locals) :
  for_each (Indexed.face a shape) nfv (off, st)
  = vs ← collect (corner_value Indexed.resolve a shape
                    <$> seqZ off (3 * Z.of_nat (length nfv)));
    Ok (off + 3 * Z.of_nat (length nfv), foldl Indexed.add_vertex st vs).
Proof.
  revert off st. induction nfv as [|fv nfv IH]; intros off st.
  - simpl. do 2 f_equal. lia.
  - cbn [for_each length]. rewrite Indexed_face_eq, seqZ_faces, fmap_app, collect_app.
    destruct (collect (corner_value Indexed.resolve a shape <$> seqZ off 3)) as [xs| |];
      simpl; [|done|done].
    rewrite IH.
    destruct (collect (corner_value Indexed.resolve a shape
                         <$> seqZ (off + 3) (3 * Z.of_nat (length nfv)))) as [ys| |];
      simpl; [|done|done].
    rewrite foldl_app. do 2 f_equal. lia.
Qed.

Lemma Indexed_shape_loop_eq (a : tinyobj.attrib_t) (st : Indexed.locals)
    (shape : tinyobj.shape_t) :
  Indexed.shape_loop a st shape
  = vs ← collect (shape_stream Indexed.resolve a shape);
    Ok (foldl Indexed.add_vertex st vs).
Proof.
  unfold Indexed.shape_loop, shape_stream. rewrite Indexed_faces_eq.
  by destruct (collect _).
Qed.

Lemma Indexed_scan_eq (a : tinyobj.attrib_t) (shapes : list tinyobj.shape_t)
    (st : Indexed.locals) :
  for_each (Indexed.shape_loop a) shapes st
  = vs ← collect (corner_stream Indexed.resolve a shapes);
    Ok (foldl Indexed.add_vertex st vs).
Proof.
  revert st. induction shapes as [|shape shapes IH]; intros st; [done|].
  cbn [for_each]. rewrite corner_stream_cons, collect_app, Indexed_shape_loop_eq.
  destruct (collect (shape_stream Indexed.resolve a shape)) as [xs| |];
    simpl; [|done|done].
  rewrite IH.
  destruct (collect (corner_stream Indexed.resolve a shapes)) as [ys| |];
    simpl; [|done|done].
  by rewrite foldl_app.
Qed.

Lemma new_copy_Ok {A : Type} (src : list A) (n : Z) (dst : list A) :
  new_copy src n = Ok dst <-> dst = src /\ Z.of_nat (length src) <= n.
Proof.
  unfold new_copy. destruct (Z.of_nat (length src) <=? n) eqn:E.
  - apply Z.leb_le in E. split; [by intros [= <-]|by intros [-> _]].
  - apply Z.leb_gt in E. split; [done|]. intros [_ ?]. lia.
Qed.

Lemma to_uint32_ge_iff (n : Z) : 0 <= n -> n <= to_uint32 n <-> n < 2 ^ 32.
Proof.
  intros Hn. unfold to_uint32. split.
  - intros H. pose proof (Z.mod_pos_bound n (2 ^ 32)). lia.
  - intros H. rewrite Z.mod_small; lia.
Qed.

Lemma dedup_length_vertices (vs : list Vertex) :
  (length (Indexed.loc_vertices (dedup vs)) <= length vs)%nat.
Proof.
  induction vs as [|v vs IH] using rev_ind; [done|].
  rewrite dedup_snoc, length_app. simpl.
  unfold Indexed.add_vertex, Indexed.subscript.
  repeat (case_match; simpl); rewrite ?length_app; simpl; lia.
Qed.

(** The mesh built from the scan's final state when nothing overflows. *)
Lemma Indexed_make_mesh_Ok (st : Indexed.locals) (m : Indexed.Mesh) :
  Indexed.make_mesh st = Ok m
  <-> Z.of_nat (length (Indexed.loc_vertices st)) < 2 ^ 32
      /\ Z.of_nat (length (Indexed.loc_indices st)) < 2 ^ 32
      /\ m = Indexed.mkMesh (Indexed.loc_vertices st) (Indexed.loc_indices st)
               (Z.of_nat (length (Indexed.loc_vertices st)))
               (Z.of_nat (length (Indexed.loc_indices st))).
Proof.
  unfold Indexed.make_mesh. rewrite bind_Ok. split.
  - intros (vs & Hvs & H). apply new_copy_Ok in Hvs as [-> Hv].
    apply bind_Ok in H as (ixs & Hixs & H). apply new_copy_Ok in Hixs as [-> Hi].
    apply to_uint32_ge_iff in Hv, Hi; [|lia|lia].
    rewrite !to_uint32_small in H by lia. injection H as <-. done.
  - intros (Hv & Hi & ->). exists (Indexed.loc_vertices st).
    rewrite !to_uint32_small by lia. split.
    + apply new_copy_Ok. split; [done|lia].
    + apply bind_Ok. exists (Indexed.loc_indices st). split; [|done].
      apply new_copy_Ok. split; [done|lia].
Qed.

Lemma make_mesh_no_throw (st : Indexed.locals) (what : string) :
  Indexed.make_mesh st <> Throw what.
Proof.
  unfold Indexed.make_mesh, new_copy. repeat (case_match; simpl); done.
Qed.

Lemma collect_no_throw {A : Type} (l : list (outcome A)) (what : string) :
  (forall o, o ∈ l -> o <> Throw what) -> collect l <> Throw what.
Proof.
  induction l as [|o l IH]; intros H; simpl; [done|].
  destruct o as [x| |] eqn:E; simpl.
  - destruct (collect l) eqn:E'; simpl; try done.
    intros [= ->]. apply IH; [|done]. intros o' Ho'. apply H. by right.
  - intros [= ->]. by apply (H (Throw what)); [left|].
  - done.
Qed.

Lemma corner_value_no_throw (fb : vec3) (a : tinyobj.attrib_t) (shape : tinyobj.shape_t)
    (k : Z) (what : string) :
  corner_value (resolve_with fb) a shape k <> Throw what.
Proof.
  unfold corner_value.
  destruct (vec_at _ k) eqn:E; simpl; [apply resolve_with_no_throw| |done].
  by apply vec_at_no_throw in E.
Qed.

Lemma corner_stream_no_throw (fb : vec3) (a : tinyobj.attrib_t)
    (shapes : list tinyobj.shape_t) (what : string) :
  collect (corner_stream (resolve_with fb) a shapes) <> Throw what.
Proof.
  apply collect_no_throw. intros o Ho.
  unfold corner_stream in Ho.
  apply list_elem_of_In, in_concat in Ho as (l & Hl & Ho).
  apply list_elem_of_In in Hl, Ho.
  apply list_elem_of_fmap in Hl as (shape & -> & _).
  apply list_elem_of_fmap in Ho as (k & -> & _).
  apply corner_value_no_throw.
Qed.

(** [loadOBJ] of the indexed viewer returns exactly when every scanned corner
    resolves and the corner count fits [uint32_t], and then it returns the
    final state of the deduplication over the corner stream. *)
Lemma Indexed_loadOBJ_Ok (a : tinyobj.attrib_t) (shapes : list tinyobj.shape_t)
    (m : Indexed.Mesh) :
  Indexed.loadOBJ (Some (a, shapes)) = Ok m
  <-> exists vs,
        corner_stream Indexed.resolve a shapes = Ok <$> vs
        /\ Z.of_nat (length vs) < 2 ^ 32
        /\ m = Indexed.mkMesh (Indexed.loc_vertices (dedup vs))
                 (Indexed.loc_indices (dedup vs))
                 (Z.of_nat (length (Indexed.loc_vertices (dedup vs))))
                 (Z.of_nat (length vs)).
Proof.
  unfold Indexed.loadOBJ. rewrite Indexed_scan_eq, bind_Ok. split.
  - intros (st & Hst & Hm). apply bind_Ok in Hst as (vs & Hvs & [= <-]).
    apply collect_Ok in Hvs. apply Indexed_make_mesh_Ok in Hm as (Hv & Hi & ->).
    fold (dedup vs) in *. rewrite dedup_length_indices in *. eauto.
  - intros (vs & Hvs & Hlen & ->). apply collect_Ok in Hvs. rewrite Hvs. simpl.
    exists (dedup vs). split; [done|]. apply Indexed_make_mesh_Ok.
    pose proof (dedup_length_vertices vs). rewrite dedup_length_indices.
    repeat split; [lia|lia].
Qed.

Lemma Indexed_loadOBJ_no_throw (a : tinyobj.attrib_t) (shapes : list tinyobj.shape_t)
    (what : string) :
  Indexed.loadOBJ (Some (a, shapes)) <> Throw what.
Proof.
  unfold Indexed.loadOBJ. rewrite Indexed_scan_eq.
  destruct (collect _) as [vs| |] eqn:E; simpl.
  - apply make_mesh_no_throw.
  - intros [= ->]. by apply (corner_stream_no_throw (Vec3 f0 f0 f1)) in E.
  - done.
Qed.

(** ** Well-formed input: every scanned corner is readable *)

Lemma corner_value_is_Ok (fb : vec3) (a : tinyobj.attrib_t) (shape : tinyobj.shape_t)
    (k : Z) :
  is_Ok (corner_value (resolve_with fb) a shape k) = true
  <-> 0 <= k
      /\ exists idx, tinyobj.indices (tinyobj.mesh shape) !! Z.to_nat k = Some idx
                     /\ corner_ok a idx = true.
Proof.
  unfold corner_value. split.
  - destruct (vec_at _ k) as [idx| |] eqn:E; simpl; [|done|done].
    apply vec_at_Ok in E as [Hk E]. rewrite resolve_with_is_Ok. eauto.
  - intros (Hk & idx & Hidx & Hok).
    assert (vec_at (tinyobj.indices (tinyobj.mesh shape)) k = Ok idx) as ->
      by (by apply vec_at_Ok).
    simpl. by rewrite resolve_with_is_Ok.
Qed.

Lemma shape_stream_is_Ok (fb : vec3) (a : tinyobj.attrib_t) (shape : tinyobj.shape_t) :
  forallb is_Ok (shape_stream (resolve_with fb) a shape) = shape_ok a shape.
Proof.
  apply eq_true_iff_eq. unfold shape_ok, shape_stream, scanned_corners.
  set (inds := tinyobj.indices (tinyobj.mesh shape)).
  set (n := length (tinyobj.num_face_vertices (tinyobj.mesh shape))).
  rewrite andb_true_iff, Z.leb_le, !forallb_forall. split.
  - intros H.
    assert (3 * Z.of_nat n <= Z.of_nat (length inds)) as Hlen.
    { destruct (decide (3 * Z.of_nat n <= Z.of_nat (length inds))) as [|Hgt]; [done|].
      exfalso.
      assert (is_Ok (corner_value (resolve_with fb) a shape (Z.of_nat (length inds))) = true)
        as Hk.
      { apply H, list_elem_of_In, list_elem_of_fmap.
        exists (Z.of_nat (length inds)). split; [done|].
        apply list_elem_of_lookup. exists (length inds).
        apply lookup_seqZ. lia. }
      apply corner_value_is_Ok in Hk as (_ & idx & Hidx & _).
      apply lookup_lt_Some in Hidx. fold inds in Hidx. lia. }
    split; [done|]. intros idx Hin.
    apply list_elem_of_In, elem_of_take in Hin as (i & Hi & Hlt).
    assert (is_Ok (corner_value (resolve_with fb) a shape (Z.of_nat i)) = true) as Hk.
    { apply H, list_elem_of_In, list_elem_of_fmap.
      exists (Z.of_nat i). split; [done|].
      apply list_elem_of_lookup. exists i. apply lookup_seqZ. lia. }
    apply corner_value_is_Ok in Hk as (_ & idx' & Hidx' & Hok).
    rewrite Nat2Z.id in Hidx'. fold inds in Hidx'. congruence.
  - intros [Hlen H] o Ho.
    apply list_elem_of_In, list_elem_of_fmap in Ho as (k & -> & Hk).
    apply list_elem_of_lookup in Hk as (i & Hi). apply lookup_seqZ in Hi as [-> Hi].
    apply corner_value_is_Ok. split; [lia|].
    destruct (lookup_lt_is_Some_2 inds i) as [idx Hidx]; [lia|].
    exists idx. rewrite Z.add_0_l, Nat2Z.id. split; [done|].
    apply H, list_elem_of_In, elem_of_take. exists i. split; [done|lia].
Qed.

Lemma corner_stream_is_Ok (fb : vec3) (a : tinyobj.attrib_t)
    (shapes : list tinyobj.shape_t) :
  forallb is_Ok (corner_stream (resolve_with fb) a shapes) = forallb (shape_ok a) shapes.
Proof.
  induction shapes as [|shape shapes IH]; [done|].
  rewrite corner_stream_cons, forallb_app, IH, shape_stream_is_Ok. done.
Qed.

Lemma collect_is_Ok_true {A : Type} (l : list (outcome A)) :
  forallb is_Ok l = true <-> exists xs, l = Ok <$> xs.
Proof.
  rewrite <- collect_is_Ok. split.
  - destruct (collect l) as [xs| |] eqn:E; [|done|done].
    intros _. exists xs. by apply collect_Ok.
  - intros [xs Hxs]. apply collect_Ok in Hxs. by rewrite Hxs.
Qed.

Lemma well_formed_stream (fb : vec3) (a : tinyobj.attrib_t)
    (shapes : list tinyobj.shape_t) :
  well_formed a shapes = true
  <-> exists vs, corner_stream (resolve_with fb) a shapes = Ok <$> vs
                 /\ Z.of_nat (length vs) < 2 ^ 32.
Proof.
  unfold well_formed.
  rewrite andb_true_iff, Z.ltb_lt, <- (corner_stream_is_Ok fb), collect_is_Ok_true.
  rewrite <- (length_corner_stream (resolve_with fb) a). split.
  - intros [[vs Hvs] Hlen]. exists vs. split; [done|].
    by rewrite Hvs, length_fmap in Hlen.
  - intros (vs & Hvs & Hlen). split; [eauto|]. by rewrite Hvs, length_fmap.
Qed.

(** The indexed [loadOBJ] returns a mesh on exactly the well-formed inputs. *)
Lemma Indexed_loadOBJ_well_formed (a : tinyobj.attrib_t) (shapes : list tinyobj.shape_t) :
  well_formed a shapes = true <-> exists m, Indexed.loadOBJ (Some (a, shapes)) = Ok m.
Proof.
  rewrite (well_formed_stream (Vec3 f0 f0 f1)). split.
  - intros (vs & Hvs & Hlen). eexists. apply Indexed_loadOBJ_Ok. eauto.
  - intros (m & (vs & Hvs & Hlen & _)%Indexed_loadOBJ_Ok). eauto.
Qed.

(** ** The scan of the plain viewer *)

Lemma Flat_corner_eq (a : tinyobj.attrib_t) (shape : tinyobj.shape_t)
    (off : Z) (vertices : list Vertex) (v : Z) :
  Flat.corner a shape off vertices v
  = x ← corner_value Flat.resolve a shape (off + v); Ok (vertices ++ [x]).
Proof. unfold Flat.corner, corner_value. by rewrite bind_assoc. Qed.

Lemma Flat_face_eq (a : tinyobj.attrib_t) (shape : tinyobj.shape_t)
    (off : Z) (vertices : list Vertex) :
  Flat.face a shape (off, vertices) 3
  = vs ← collect (corner_value Flat.resolve a shape <$> seqZ off 3);
    Ok (off + 3, vertices ++ vs).
Proof.
  unfold Flat.face. rewrite seqZ_3. simpl. rewrite !Flat_corner_eq.
  destruct (corner_value Flat.resolve a shape (off + 0)); simpl; [|done|done].
  rewrite !Flat_corner_eq.
  destruct (corner_value Flat.resolve a shape (off + 1)); simpl; [|done|done].
  rewrite !Flat_corner_eq.
  destruct (corner_value Flat.resolve a shape (off + 2)); simpl; [|done|done].
  by rewrite <- !app_assoc.
Qed.

Lemma Flat_face_not_3 (a : tinyobj.attrib_t) (shape : tinyobj.shape_t)
    (s : Z * list Vertex) (fv : Z) :
  fv <> 3 -> Flat.face a shape s fv = Throw "Non-triangle face detected.".
Proof.
  intros H. unfold Flat.face. destruct s as [off vertices].
  apply Z.eqb_neq in H. by rewrite H.
Qed.

Lemma Flat_faces_eq (a : tinyobj.attrib_t) (shape : tinyobj.shape_t)
    (nfv : list Z) (off : Z) (vertices : list Vertex) :
  forallb (fun fv => fv =? 3) nfv = true ->
  for_each (Flat.face a shape) nfv (off, vertices)
  = vs ← collect (corner_value Flat.resolve a shape
                    <$> seqZ off (3 * Z.of_nat (length nfv)));
    Ok (off + 3 * Z.of_nat (length nfv), vertices ++ vs).
Proof.
  revert off vertices. induction nfv as [|fv nfv IH]; intros off vertices Hall.
  - simpl. rewrite app_nil_r. do 2 f_equal. lia.
  - simpl in Hall. apply andb_prop in Hall as [->%Z.eqb_eq Hall].
    cbn [for_each length]. rewrite Flat_face_eq, seqZ_faces, fmap_app, collect_app.
    destruct (collect (corner_value Flat.resolve a shape <$> seqZ off 3)) as [xs| |];
      simpl; [|done|done].
    rewrite (IH _ _ Hall).
    destruct (collect (corner_value Flat.resolve a shape
                         <$> seqZ (off + 3) (3 * Z.of_nat (length nfv)))) as [ys| |];
      simpl; [|done|done].
    rewrite app_assoc. do 2 f_equal. lia.
Qed.

Lemma Flat_faces_Ok_triangles (a : tinyobj.attrib_t) (shape : tinyobj.shape_t)
    (nfv : list Z) (s s' : Z * list Vertex) :
  for_each (Flat.face a shape) nfv s = Ok s' -> forallb (fun fv => fv =? 3) nfv = true.
Proof.
  revert s. induction nfv as [|fv nfv IH]; intros s H; [done|].
  simpl in H. apply bind_Ok in H as (s1 & H1 & H). simpl.
  rewrite (IH _ H), andb_true_r. apply Z.eqb_eq.
  destruct (decide (fv = 3)) as [|Hne]; [done|].
  by rewrite Flat_face_not_3 in H1.
Qed.

Lemma Flat_shape_loop_eq (a : tinyobj.attrib_t) (vertices : list Vertex)
    (shape : tinyobj.shape_t) :
  triangles_only shape = true ->
  Flat.shape_loop a vertices shape
  = vs ← collect (shape_stream Flat.resolve a shape); Ok (vertices ++ vs).
Proof.
  intros H. unfold Flat.shape_loop, shape_stream. rewrite Flat_faces_eq by done.
  by destruct (collect _).
Qed.

Lemma Flat_scan_eq (a : tinyobj.attrib_t) (shapes : list tinyobj.shape_t)
    (vertices : list Vertex) :
  forallb triangles_only shapes = true ->
  for_each (Flat.shape_loop a) shapes vertices
  = vs ← collect (corner_stream Flat.resolve a shapes); Ok (vertices ++ vs).
Proof.
  revert vertices. induction shapes as [|shape shapes IH]; intros vertices Hall.
  - simpl. by rewrite app_nil_r.
  - simpl in Hall. apply andb_prop in Hall as [Hs Hall].
    cbn [for_each]. rewrite corner_stream_cons, collect_app, Flat_shape_loop_eq by done.
    destruct (collect (shape_stream Flat.resolve a shape)) as [xs| |];
      simpl; [|done|done].
    rewrite (IH _ Hall).
    destruct (collect (corner_stream Flat.resolve a shapes)) as [ys| |];
      simpl; [|done|done].
    by rewrite app_assoc.
Qed.

Lemma Flat_scan_Ok_triangles (a : tinyobj.attrib_t) (shapes : list tinyobj.shape_t)
    (vertices vertices' : list Vertex) :
  for_each (Flat.shape_loop a) shapes vertices = Ok vertices' ->
  forallb triangles_only shapes = true.
Proof.
  revert vertices. induction shapes as [|shape shapes IH]; intros vertices H; [done|].
  simpl in H. apply bind_Ok in H as (v1 & H1 & H). simpl.
  rewrite (IH _ H), andb_true_r.
  unfold Flat.shape_loop in H1. apply bind_Ok in H1 as (s & H1 & _).
  by eapply Flat_faces_Ok_triangles.
Qed.

Lemma Flat_make_mesh_Ok (vertices : list Vertex) (m : Flat.Mesh) :
  Flat.make_mesh vertices = Ok m
  <-> Z.of_nat (length vertices) < 2 ^ 32
      /\ m = Flat.mkMesh vertices (Z.of_nat (length vertices)).
Proof.
  unfold Flat.make_mesh. rewrite bind_Ok. split.
  - intros (vs & Hvs & H). apply new_copy_Ok in Hvs as [-> Hv].
    apply to_uint32_ge_iff in Hv; [|lia].
    rewrite to_uint32_small in H by lia. by injection H as <-.
  - intros (Hv & ->). exists vertices. rewrite to_uint32_small by lia.
    split; [|done]. apply new_copy_Ok. split; [done|lia].
Qed.

(** The plain [loadOBJ] returns exactly when every face record announces
    three corners, every scanned corner resolves and their number fits
    [uint32_t]; it then returns the corner stream itself. *)
Lemma Flat_loadOBJ_Ok (a : tinyobj.attrib_t) (shapes : list tinyobj.shape_t)
    (m : Flat.Mesh) :
  Flat.loadOBJ (Some (a, shapes)) = Ok m
  <-> forallb triangles_only shapes = true
      /\ exists vs,
           corner_stream Flat.resolve a shapes = Ok <$> vs
           /\ Z.of_nat (length vs) < 2 ^ 32
           /\ m = Flat.mkMesh vs (Z.of_nat (length vs)).
Proof.
  unfold Flat.loadOBJ. rewrite bind_Ok. split.
  - intros (vertices & Hscan & Hm).
    pose proof (Flat_scan_Ok_triangles _ _ _ _ Hscan) as Htri.
    rewrite Flat_scan_eq in Hscan by done.
    apply bind_Ok in Hscan as (vs & Hvs & [= <-]). apply collect_Ok in Hvs.
    apply Flat_make_mesh_Ok in Hm as [Hlen ->]. eauto.
  - intros (Htri & vs & Hvs & Hlen & ->). exists vs. split.
    + rewrite Flat_scan_eq by done. apply collect_Ok in Hvs. by rewrite Hvs.
    + by apply Flat_make_mesh_Ok.
Qed.

(** ** The triangle check of the plain viewer *)

Lemma foldr_add_nonneg (l : list Z) :
  forallb (fun fv => 0 <=? fv) l = true -> 0 <= foldr Z.add 0 l.
Proof.
  induction l as [|z l IH]; simpl; [done|].
  intros [Hz Hl]%andb_prop. apply Z.leb_le in Hz. specialize (IH Hl). lia.
Qed.

Lemma Flat_triangle_readable (a : tinyobj.attrib_t) (shape : tinyobj.shape_t) (off : Z) :
  forallb (corner_ok a) (tinyobj.indices (tinyobj.mesh shape)) = true ->
  0 <= off -> off + 3 <= Z.of_nat (length (tinyobj.indices (tinyobj.mesh shape))) ->
  exists vs, collect (corner_value Flat.resolve a shape <$> seqZ off 3) = Ok vs.
Proof.
  intros Hok H0 Hlen.
  assert (forallb is_Ok (corner_value Flat.resolve a shape <$> seqZ off 3) = true) as H.
  { apply forallb_forall. intros o Ho.
    apply list_elem_of_In, list_elem_of_fmap in Ho as (k & -> & Hk).
    apply list_elem_of_lookup in Hk as (i & Hi). apply lookup_seqZ in Hi as [-> Hi].
    rewrite Flat_resolve_eq. apply corner_value_is_Ok. split; [lia|].
    destruct (lookup_lt_is_Some_2 (tinyobj.indices (tinyobj.mesh shape))
                (Z.to_nat (off + Z.of_nat i))) as [idx Hidx]; [lia|].
    exists idx. split; [done|].
    rewrite forallb_forall in Hok. apply Hok, list_elem_of_In.
    by eapply list_elem_of_lookup_2. }
  rewrite <- collect_is_Ok in H. destruct (collect _) as [vs| |]; [eauto|done|done].
Qed.

Lemma Flat_faces_throw (a : tinyobj.attrib_t) (shape : tinyobj.shape_t) (nfv : list Z)
    (off : Z) (vertices : list Vertex) :
  forallb (corner_ok a) (tinyobj.indices (tinyobj.mesh shape)) = true ->
  forallb (fun fv => 0 <=? fv) nfv = true ->
  0 <= off ->
  off + foldr Z.add 0 nfv <= Z.of_nat (length (tinyobj.indices (tinyobj.mesh shape))) ->
  forallb (fun fv => fv =? 3) nfv = false ->
  for_each (Flat.face a shape) nfv (off, vertices) = Throw "Non-triangle face detected.".
Proof.
  intros Hok. revert off vertices.
  induction nfv as [|fv nfv IH]; intros off vertices Hpos H0 Hlen Hnt; [done|].
  simpl in Hpos, Hlen, Hnt. apply andb_prop in Hpos as [Hfv Hpos].
  pose proof (foldr_add_nonneg _ Hpos) as Hsum.
  cbn [for_each]. destruct (decide (fv = 3)) as [->|Hne].
  - rewrite Flat_face_eq.
    destruct (Flat_triangle_readable a shape off Hok H0) as [vs ->]; [lia|].
    simpl. apply IH; [done|lia|lia|done].
  - by rewrite Flat_face_not_3.
Qed.

Lemma consistent_shape_ok (a : tinyobj.attrib_t) (shape : tinyobj.shape_t) :
  consistent a shape = true -> triangles_only shape = true -> shape_ok a shape = true.
Proof.
  unfold consistent, triangles_only, shape_ok, scanned_corners.
  intros [[Hpos Hlen%Z.eqb_eq]%andb_prop Hok]%andb_prop Htri.
  assert (foldr Z.add 0 (tinyobj.num_face_vertices (tinyobj.mesh shape))
          = 3 * Z.of_nat (length (tinyobj.num_face_vertices (tinyobj.mesh shape)))) as Hsum.
  { clear Hlen Hpos. induction (tinyobj.num_face_vertices (tinyobj.mesh shape)) as [|fv l IH];
      [done|].
    simpl in Htri. apply andb_prop in Htri as [->%Z.eqb_eq Htri].
    cbn [foldr length]. rewrite (IH Htri). lia. }
  apply andb_true_iff. split; [apply Z.leb_le; lia|].
  rewrite take_ge; [done|lia].
Qed.

Lemma Flat_shape_loop_throw (a : tinyobj.attrib_t) (shape : tinyobj.shape_t)
    (vertices : list Vertex) :
  consistent a shape = true -> triangles_only shape = false ->
  Flat.shape_loop a vertices shape = Throw "Non-triangle face detected.".
Proof.
  unfold consistent, triangles_only.
  intros [[Hpos Hlen%Z.eqb_eq]%andb_prop Hok]%andb_prop Htri.
  unfold Flat.shape_loop. rewrite Flat_faces_throw; [done..|lia|done].
Qed.

Lemma Flat_scan_throw (a : tinyobj.attrib_t) (shapes : list tinyobj.shape_t)
    (vertices : list Vertex) :
  forallb (consistent a) shapes = true ->
  forallb triangles_only shapes = false ->
  for_each (Flat.shape_loop a) shapes vertices = Throw "Non-triangle face detected.".
Proof.
  revert vertices. induction shapes as [|shape shapes IH]; intros vertices Hc Hnt; [done|].
  simpl in Hc, Hnt. apply andb_prop in Hc as [Hs Hc]. cbn [for_each].
  destruct (triangles_only shape) eqn:Htri.
  - rewrite Flat_shape_loop_eq by done.
    pose proof (consistent_shape_ok _ _ Hs Htri) as Hsok.
    rewrite <- (shape_stream_is_Ok (Vec3 f0 f0 f0)), <- collect_is_Ok in Hsok.
    rewrite Flat_resolve_eq.
    destruct (collect _) as [vs| |]; [|done|done]. simpl. by apply IH.
  - by rewrite Flat_shape_loop_throw.
Qed.

(** ** Vertex equality *)

Lemma byte_to_N_inj (b c : byte) : Byte.to_N b = Byte.to_N c -> b = c.
Proof.
  intros H. pose proof (Byte.of_to_N b) as Hb. rewrite H, Byte.of_to_N in Hb.
  by injection Hb.
Qed.

Lemma memcmp_refl (a : list byte) (n : nat) : memcmp a a n = 0.
Proof.
  revert a. induction n as [|n IH]; intros [|c a]; simpl; try done.
  by rewrite N.compare_refl.
Qed.

Lemma memcmp_0 (a b : list byte) (n : nat) :
  length a = n -> length b = n -> memcmp a b n = 0 -> a = b.
Proof.
  revert a b. induction n as [|n IH]; intros a b Ha Hb H.
  - destruct a, b; done.
  - destruct a as [|ca a], b as [|cb b]; try done. simpl in *.
    destruct (N.compare_spec (Byte.to_N ca) (Byte.to_N cb)) as [Heq| |]; try done.
    apply byte_to_N_inj in Heq as ->. f_equal. apply IH; [lia|lia|done].
Qed.

Lemma length_object_representation (v : Vertex) :
  length (object_representation v) = sizeof_Vertex.
Proof. reflexivity. Qed.

Lemma object_representation_inj (a b : Vertex) :
  object_representation a = object_representation b -> a = b.
Proof.
  destruct a as [[[] [] []] [[] [] []] [[] []]], b as [[[] [] []] [[] [] []] [[] []]].
  unfold object_representation. simpl. intros H. by simplify_eq.
Qed.

Lemma Vertex_eq_true (a b : Vertex) : Vertex_eq a b = true <-> a = b.
Proof.
  unfold Vertex_eq. rewrite Z.eqb_eq. split.
  - intros H. apply object_representation_inj.
    by apply (memcmp_0 _ _ sizeof_Vertex).
  - intros ->. apply memcmp_refl.
Qed.

Lemma float_bits_inj (f g : float) : float_bits f = float_bits g -> f = g.
Proof.
  destruct f as [a0 a1 a2 a3], g as [b0 b1 b2 b3]. unfold float_bits. simpl.
  intros H.
  pose proof (Byte.to_N_bounded a0). pose proof (Byte.to_N_bounded a1).
  pose proof (Byte.to_N_bounded a2). pose proof (Byte.to_N_bounded a3).
  pose proof (Byte.to_N_bounded b0). pose proof (Byte.to_N_bounded b1).
  pose proof (Byte.to_N_bounded b2). pose proof (Byte.to_N_bounded b3).
  assert (Byte.to_N a0 = Byte.to_N b0) as ->%byte_to_N_inj by lia.
  assert (Byte.to_N a1 = Byte.to_N b1) as ->%byte_to_N_inj by lia.
  assert (Byte.to_N a2 = Byte.to_N b2) as ->%byte_to_N_inj by lia.
  assert (Byte.to_N a3 = Byte.to_N b3) as ->%byte_to_N_inj by lia.
  done.
Qed.

Lemma float_bits_range (f : float) : 0 <= float_bits f < 2 ^ 32.
Proof.
  destruct f as [a0 a1 a2 a3]. unfold float_bits. simpl.
  pose proof (Byte.to_N_bounded a0). pose proof (Byte.to_N_bounded a1).
  pose proof (Byte.to_N_bounded a2). pose proof (Byte.to_N_bounded a3). lia.
Qed.

Lemma same_bits_iff (f g : float) :
  (forall i, Z.testbit (float_bits f) i = Z.testbit (float_bits g) i) <-> f = g.
Proof.
  split; [|by intros ->]. intros H. by apply float_bits_inj, Z.bits_inj'.
Qed.

Lemma components_inj (a b : Vertex) : components a = components b -> a = b.
Proof.
  destruct a as [[] [] []], b as [[] [] []]. unfold components. simpl.
  intros H. by simplify_eq.
Qed.

(** ** Replaying the indexed mesh *)

Lemma replay_dedup (vs : list Vertex) :
  Z.of_nat (length vs) <= 2 ^ 32 ->
  replay (Indexed.loc_vertices (dedup vs)) (Indexed.loc_indices (dedup vs)) = Some <$> vs.
Proof.
  intros Hlen. destruct (dedup_inv_holds vs Hlen) as [Hv Hmap Hidx].
  unfold replay. rewrite Hv. clear Hv Hlen. revert Hmap Hidx.
  generalize (first_occurrences vs) (Indexed.uniqueVertices (dedup vs))
    (Indexed.loc_indices (dedup vs)).
  intros fo mp ixs Hmap Hidx.
  induction Hidx as [|v i vs' is' Hvi _ IH]; [done|].
  rewrite !fmap_cons. f_equal; [|done].
  apply Hmap in Hvi as [Hi Hl]. apply Z.leb_le in Hi. by rewrite Hi.
Qed.

Lemma dedup_indices_in_range (vs : list Vertex) :
  Z.of_nat (length vs) <= 2 ^ 32 ->
  Forall (fun i => 0 <= i < Z.of_nat (length (Indexed.loc_vertices (dedup vs))))
    (Indexed.loc_indices (dedup vs)).
Proof.
  intros Hlen. destruct (dedup_inv_holds vs Hlen) as [Hv Hmap Hidx].
  rewrite Hv. clear Hv Hlen. revert Hmap Hidx.
  generalize (first_occurrences vs) (Indexed.uniqueVertices (dedup vs))
    (Indexed.loc_indices (dedup vs)).
  intros fo mp ixs Hmap Hidx.
  induction Hidx as [|v i vs' is' Hvi _ IH]; constructor; [|done].
  apply Hmap in Hvi as [Hi Hl%lookup_lt_Some]. lia.
Qed.

(** C1: whenever the deduplicating [loadOBJ] returns a mesh, every scanned
    corner resolved to a vertex, and looking each index of the mesh up in
    its vertex array gives back exactly these vertices, in scan order. *)
Theorem replay_reconstructs_corner_stream (a : tinyobj.attrib_t)
    (shapes : list tinyobj.shape_t) (m : Indexed.Mesh) :
  Indexed.loadOBJ (Some (a, shapes)) = Ok m ->
  exists vs,
    corner_stream Indexed.resolve a shapes = Ok <$> vs
    /\ replay (Indexed.vertices m) (Indexed.indices m) = Some <$> vs.
Proof.
  intros (vs & Hvs & Hlen & ->)%Indexed_loadOBJ_Ok. exists vs. split; [done|].
  simpl. apply replay_dedup. lia.
Qed.

Lemma replay_reconstructs_corner_stream_witness :
  exists m,
    Indexed.loadOBJ (Some (bare_attrib, [triangle_aba; triangle])) = Ok m
    /\ exists vs,
         corner_stream Indexed.resolve bare_attrib [triangle_aba; triangle] = Ok <$> vs
         /\ replay (Indexed.vertices m) (Indexed.indices m) = Some <$> vs.
Proof.
  eexists. split; [vm_compute; reflexivity|].
  apply (replay_reconstructs_corner_stream bare_attrib [triangle_aba; triangle]).
  vm_compute. reflexivity.
Defined.

(** ** Global deduplication *)

Lemma dedup_take_S (vs : list Vertex) (k : nat) (v : Vertex) :
  vs !! k = Some v ->
  dedup (take (S k) vs) = Indexed.add_vertex (dedup (take k vs)) v.
Proof. intros H. by rewrite (take_S_r _ _ _ H), dedup_snoc. Qed.

Lemma dedup_vertices (vs : list Vertex) :
  Z.of_nat (length vs) <= 2 ^ 32 ->
  Indexed.loc_vertices (dedup vs) = first_occurrences vs.
Proof. intros H. by destruct (dedup_inv_holds vs H). Qed.

Lemma dedup_step_seen (vs : list Vertex) (v : Vertex) :
  Z.of_nat (length vs) <= 2 ^ 32 -> v ∈ vs ->
  Indexed.loc_vertices (Indexed.add_vertex (dedup vs) v) = Indexed.loc_vertices (dedup vs)
  /\ exists (j : nat) (i : Z),
       vs !! j = Some v
       /\ Indexed.loc_indices (dedup vs) !! j = Some i
       /\ Indexed.loc_indices (Indexed.add_vertex (dedup vs) v)
          = Indexed.loc_indices (dedup vs) ++ [i].
Proof.
  intros Hlen Hin. pose proof (dedup_inv_holds vs Hlen) as Hinv.
  destruct (proj2 (inv_seen_iff _ _ v Hinv) Hin) as [i Hi].
  rewrite (add_vertex_seen _ _ _ Hi). simpl. split; [done|].
  apply list_elem_of_lookup_1 in Hin as [j Hj]. exists j, i. split; [done|].
  split; [|done].
  destruct (Forall2_lookup_l _ _ _ _ _ (inv_indices _ _ Hinv) Hj) as (i' & Hi' & Hm).
  congruence.
Qed.

Lemma dedup_step_new (vs : list Vertex) (v : Vertex) :
  Z.of_nat (length vs) < 2 ^ 32 -> v ∉ vs ->
  Indexed.loc_vertices (Indexed.add_vertex (dedup vs) v)
  = Indexed.loc_vertices (dedup vs) ++ [v]
  /\ Indexed.loc_indices (Indexed.add_vertex (dedup vs) v)
     = Indexed.loc_indices (dedup vs)
       ++ [Z.of_nat (length (Indexed.loc_vertices (dedup vs)))].
Proof.
  intros Hlen Hnin. assert (Z.of_nat (length vs) <= 2 ^ 32) as Hle by lia.
  pose proof (dedup_inv_holds vs Hle) as Hinv.
  destruct (Indexed.uniqueVertices (dedup vs) !! v) as [i|] eqn:E.
  - exfalso. apply Hnin, (inv_seen_iff _ _ v Hinv). eauto.
  - rewrite (add_vertex_new _ _ E). simpl.
    pose proof (dedup_length_vertices vs). by rewrite to_uint32_small by lia.
Qed.

(** C2: deduplication is global.  Whenever the deduplicating [loadOBJ]
    returns a mesh, its arrays are those of the scan's containers after the
    whole corner stream [vs], and at every corner [k] of value [v], with
    [before] and [after] the containers around that corner: if [v] occurred
    anywhere earlier in the stream, the vertex array is unchanged and the
    index pushed is the one pushed at an earlier occurrence [j] of [v];
    otherwise [v] is appended to the vertex array and the index pushed is the
    vertex count before the append.  The vertex array of the mesh is
    therefore the stream's values in order of first occurrence, and a stream
    [A; B; A] with [A <> B] gives two vertices and the indices [0; 1; 0]. *)
Theorem deduplication_is_global (a : tinyobj.attrib_t)
    (shapes : list tinyobj.shape_t) (m : Indexed.Mesh) :
  Indexed.loadOBJ (Some (a, shapes)) = Ok m ->
  exists vs,
    corner_stream Indexed.resolve a shapes = Ok <$> vs
    /\ Indexed.vertices m = Indexed.loc_vertices (dedup vs)
    /\ Indexed.indices m = Indexed.loc_indices (dedup vs)
    /\ (forall (k : nat) (v : Vertex), vs !! k = Some v ->
         let before := dedup (take k vs) in
         let after := dedup (take (S k) vs) in
         (v ∈ take k vs ->
            Indexed.loc_vertices after = Indexed.loc_vertices before
            /\ exists (j : nat) (i : Z),
                 (j < k)%nat /\ vs !! j = Some v
                 /\ Indexed.loc_indices before !! j = Some i
                 /\ Indexed.loc_indices after = Indexed.loc_indices before ++ [i])
         /\ (v ∉ take k vs ->
               Indexed.loc_vertices after = Indexed.loc_vertices before ++ [v]
               /\ Indexed.loc_indices after
                  = Indexed.loc_indices before
                    ++ [Z.of_nat (length (Indexed.loc_vertices before))]))
    /\ Indexed.vertices m = first_occurrences vs
    /\ (forall A B : Vertex, A <> B -> vs = [A; B; A] ->
          Indexed.vertices m = [A; B] /\ Indexed.indices m = [0; 1; 0]).
Proof.
  intros (vs & Hvs & Hlen & ->)%Indexed_loadOBJ_Ok. exists vs. simpl.
  split; [done|]. split; [done|]. split; [done|]. split; [|split].
  - intros k v Hk. simpl. rewrite (dedup_take_S _ _ _ Hk).
    pose proof (lookup_lt_Some _ _ _ Hk) as Hlt.
    assert (length (take k vs) = k) as Htk by (rewrite length_take; lia).
    split.
    + intros Hin.
      destruct (dedup_step_seen (take k vs) v) as (Hverts & j & i & Hj & Hi & Hixs);
        [lia|done|].
      split; [done|]. exists j, i.
      pose proof (lookup_lt_Some _ _ _ Hj) as Hjk. rewrite Htk in Hjk.
      rewrite lookup_take_lt in Hj by done. done.
    + intros Hnin. apply dedup_step_new; [lia|done].
  - apply dedup_vertices. lia.
  - intros A B Hne ->. unfold dedup. simpl.
    unfold Indexed.add_vertex, Indexed.count, Indexed.subscript. simpl.
    rewrite lookup_empty. simpl. rewrite lookup_insert_eq. simpl.
    rewrite lookup_insert_ne, lookup_empty by done. simpl.
    rewrite lookup_insert_eq. simpl.
    rewrite lookup_insert_ne, lookup_insert_eq by done. simpl.
    rewrite lookup_insert_ne, lookup_insert_eq by done. done.
Qed.

Lemma deduplication_is_global_witness :
  exists m,
    Indexed.loadOBJ (Some (bare_attrib, [triangle_aba])) = Ok m
    /\ length (Indexed.vertices m) = 2%nat
    /\ Indexed.indices m = [0; 1; 0].
Proof.
  eexists. split; [vm_compute; reflexivity|].
  destruct (deduplication_is_global bare_attrib [triangle_aba] _ eq_refl)
    as (vs & Hvs & _ & _ & _ & _ & Haba).
  vm_compute in Hvs.
  destruct vs as [|A [|B [|C [|D vs]]]]; try discriminate Hvs.
  injection Hvs as <- <- <-.
  destruct (Haba origin (mkVertex (Vec3 f1 f0 f0) (Vec3 f0 f0 f1) (Vec2 f0 f0)))
    as [Hv Hi]; [discriminate|reflexivity|].
  split; [exact (f_equal length Hv)|exact Hi].
Defined.

(** ** Index range and size *)

(** C3: in every mesh the deduplicating [loadOBJ] returns, each index is
    below the vertex count and the index count is a multiple of three; the
    two counts are the lengths of the two arrays. *)
Theorem indices_in_range (a : tinyobj.attrib_t) (shapes : list tinyobj.shape_t)
    (m : Indexed.Mesh) :
  Indexed.loadOBJ (Some (a, shapes)) = Ok m ->
  Forall (fun i => 0 <= i < Indexed.vertexCount m) (Indexed.indices m)
  /\ Indexed.indexCount m mod 3 = 0
  /\ Indexed.vertexCount m = Z.of_nat (length (Indexed.vertices m))
  /\ Indexed.indexCount m = Z.of_nat (length (Indexed.indices m)).
Proof.
  intros (vs & Hvs & Hlen & ->)%Indexed_loadOBJ_Ok. simpl.
  split; [apply dedup_indices_in_range; lia|]. split; [|split; [done|]].
  - pose proof (length_corner_stream Indexed.resolve a shapes) as H.
    rewrite Hvs, length_fmap in H. rewrite H, Z.mul_comm. apply Z_mod_mult.
  - by rewrite dedup_length_indices.
Qed.

Lemma indices_in_range_witness :
  exists m,
    Indexed.loadOBJ (Some (full_attrib, [two_triangles])) = Ok m
    /\ Forall (fun i => 0 <= i < Indexed.vertexCount m) (Indexed.indices m)
    /\ Indexed.indexCount m mod 3 = 0
    /\ Indexed.vertexCount m = Z.of_nat (length (Indexed.vertices m))
    /\ Indexed.indexCount m = Z.of_nat (length (Indexed.indices m)).
Proof.
  eexists. split; [vm_compute; reflexivity|].
  apply (indices_in_range full_attrib [two_triangles]). vm_compute. reflexivity.
Defined.

(** C4: the vertex count of a returned mesh is at most three times the
    number of face records, with equality exactly when no two corners of the
    stream resolve to the same vertex value. *)
Theorem vertex_count_bound (a : tinyobj.attrib_t) (shapes : list tinyobj.shape_t)
    (m : Indexed.Mesh) :
  Indexed.loadOBJ (Some (a, shapes)) = Ok m ->
  Indexed.vertexCount m <= 3 * face_count shapes
  /\ (Indexed.vertexCount m = 3 * face_count shapes
      <-> NoDup (corner_stream Indexed.resolve a shapes)).
Proof.
  intros (vs & Hvs & Hlen & ->)%Indexed_loadOBJ_Ok. simpl.
  pose proof (length_corner_stream Indexed.resolve a shapes) as H.
  rewrite Hvs, length_fmap in H. rewrite <- H, Hvs, dedup_vertices by lia.
  pose proof (length_first_occurrences vs). split; [lia|].
  rewrite (NoDup_fmap Ok), <- first_occurrences_full. lia.
Qed.

Lemma vertex_count_bound_witness :
  exists m,
    Indexed.loadOBJ (Some (full_attrib, [two_triangles])) = Ok m
    /\ Indexed.vertexCount m <= 3 * face_count [two_triangles]
    /\ (Indexed.vertexCount m = 3 * face_count [two_triangles]
        <-> NoDup (corner_stream Indexed.resolve full_attrib [two_triangles])).
Proof.
  eexists. split; [vm_compute; reflexivity|].
  apply (vertex_count_bound full_attrib [two_triangles]). vm_compute. reflexivity.
Defined.

(** ** Missing normals and texture coordinates *)

Lemma corner_stream_resolved (R : tinyobj.attrib_t -> tinyobj.index_t -> outcome Vertex)
    (a : tinyobj.attrib_t) (shapes : list tinyobj.shape_t) (vs : list Vertex) (v : Vertex) :
  corner_stream R a shapes = Ok <$> vs -> v ∈ vs -> exists idx, R a idx = Ok v.
Proof.
  intros Hvs Hv.
  assert (Ok v ∈ corner_stream R a shapes) as Hin
    by (rewrite Hvs; by apply list_elem_of_fmap_2).
  unfold corner_stream in Hin.
  apply list_elem_of_In, in_concat in Hin as (l & Hl & Hin).
  apply list_elem_of_In in Hl, Hin.
  apply list_elem_of_fmap in Hl as (shape & -> & _).
  apply list_elem_of_fmap in Hin as (k & Hk & _).
  symmetry in Hk. apply bind_Ok in Hk as (idx & _ & Hk). eauto.
Qed.

Lemma Flat_faces_throw_readable (a : tinyobj.attrib_t) (shape : tinyobj.shape_t)
    (nfv : list Z) (off : Z) (vertices : list Vertex) :
  (forall k, off <= k < off + 3 * Z.of_nat (length nfv) ->
             exists v, corner_value Flat.resolve a shape k = Ok v) ->
  forallb (fun fv => fv =? 3) nfv = false ->
  for_each (Flat.face a shape) nfv (off, vertices) = Throw "Non-triangle face detected.".
Proof.
  revert off vertices. induction nfv as [|fv nfv IH]; intros off vertices Hread Hnt;
    [done|].
  cbn [for_each]. destruct (decide (fv = 3)) as [->|Hne].
  - rewrite Flat_face_eq, seqZ_3. cbn [length] in Hread.
    destruct (Hread (off + 0)) as [v0 H0]; [lia|].
    destruct (Hread (off + 1)) as [v1 H1]; [lia|].
    destruct (Hread (off + 2)) as [v2 H2]; [lia|].
    simpl. rewrite H0, H1, H2. simpl. apply IH; [|done].
    intros k Hk. apply Hread. lia.
  - by rewrite Flat_face_not_3.
Qed.

Lemma shape_ok_readable (fb : vec3) (a : tinyobj.attrib_t) (shape : tinyobj.shape_t) (k : Z) :
  shape_ok a shape = true ->
  0 <= k < 3 * Z.of_nat (length (tinyobj.num_face_vertices (tinyobj.mesh shape))) ->
  exists v, corner_value (resolve_with fb) a shape k = Ok v.
Proof.
  intros Hok Hk. rewrite <- (shape_stream_is_Ok fb), forallb_forall in Hok.
  assert (is_Ok (corner_value (resolve_with fb) a shape k) = true) as H.
  { apply Hok, list_elem_of_In, list_elem_of_fmap. exists k. split; [done|].
    apply list_elem_of_lookup. exists (Z.to_nat k). apply lookup_seqZ. lia. }
  destruct (corner_value _ a shape k) as [v| |]; [eauto|done|done].
Qed.

Lemma Flat_scan_throw_well_formed (a : tinyobj.attrib_t) (shapes : list tinyobj.shape_t)
    (vertices : list Vertex) :
  forallb (shape_ok a) shapes = true ->
  forallb triangles_only shapes = false ->
  for_each (Flat.shape_loop a) shapes vertices = Throw "Non-triangle face detected.".
Proof.
  revert vertices. induction shapes as [|shape shapes IH]; intros vertices Hok Hnt; [done|].
  simpl in Hok, Hnt. apply andb_prop in Hok as [Hs Hok]. cbn [for_each].
  destruct (triangles_only shape) eqn:Htri.
  - rewrite Flat_shape_loop_eq by done.
    rewrite <- (shape_stream_is_Ok (Vec3 f0 f0 f0)), <- collect_is_Ok in Hs.
    rewrite Flat_resolve_eq.
    destruct (collect _) as [vs| |]; [|done|done]. simpl. by apply IH.
  - unfold Flat.shape_loop. rewrite Flat_faces_throw_readable; [done| |done].
    intros k Hk. rewrite Flat_resolve_eq. apply shape_ok_readable; [done|lia].
Qed.

(** C5, as the code has it: on a well-formed input (which asks nothing of
    a normal index when the normals array is empty, and likewise for texture
    coordinates) the deduplicating build returns a mesh, and the flat build
    returns one when every face record announces three corners; with an
    empty normals array every vertex of the indexed mesh has the normal
    (0,0,1) and every vertex of the flat mesh the normal (0,0,0); with an
    empty texcoords array every vertex of either has the texture coordinate
    (0,0).  When some face record is not a triangle the flat build fails, on
    such an input, with its own "Non-triangle face detected." and with
    nothing else: never because normals or texture coordinates are absent. *)
Theorem missing_attribute_fallback (a : tinyobj.attrib_t)
    (shapes : list tinyobj.shape_t) :
  well_formed a shapes = true ->
  (exists m,
     Indexed.loadOBJ (Some (a, shapes)) = Ok m
     /\ (tinyobj.normals a = [] ->
          Forall (fun v => normal v = Vec3 f0 f0 f1) (Indexed.vertices m))
     /\ (tinyobj.texcoords a = [] ->
          Forall (fun v => texcoords v = Vec2 f0 f0) (Indexed.vertices m)))
  /\ (forallb triangles_only shapes = true ->
       exists m,
         Flat.loadOBJ (Some (a, shapes)) = Ok m
         /\ (tinyobj.normals a = [] ->
              Forall (fun v => normal v = Vec3 f0 f0 f0) (Flat.vertices m))
         /\ (tinyobj.texcoords a = [] ->
              Forall (fun v => texcoords v = Vec2 f0 f0) (Flat.vertices m)))
  /\ (forallb triangles_only shapes = false ->
       Flat.loadOBJ (Some (a, shapes)) = Throw "Non-triangle face detected.").
Proof.
  intros Hwf. split; [|split].
  - pose proof Hwf as (vs & Hvs & Hlen)%(well_formed_stream (Vec3 f0 f0 f1)).
    eexists. split; [apply Indexed_loadOBJ_Ok; eauto|]. simpl.
    rewrite dedup_vertices by lia.
    split; intros Hempty; apply Forall_forall; intros v Hv;
      rewrite elem_of_first_occurrences in Hv;
      destruct (corner_stream_resolved _ _ _ _ _ Hvs Hv) as [idx Hidx].
    + by eapply resolve_with_normal_fallback.
    + by eapply resolve_with_texcoord_fallback.
  - intros Htri.
    pose proof Hwf as (vs & Hvs & Hlen)%(well_formed_stream (Vec3 f0 f0 f0)).
    eexists. split; [apply Flat_loadOBJ_Ok; eauto|]. simpl.
    split; intros Hempty; apply Forall_forall; intros v Hv;
      destruct (corner_stream_resolved _ _ _ _ _ Hvs Hv) as [idx Hidx].
    + by eapply resolve_with_normal_fallback.
    + by eapply resolve_with_texcoord_fallback.
  - intros Hnt. unfold well_formed in Hwf. apply andb_prop in Hwf as [Hok _].
    unfold Flat.loadOBJ. by rewrite Flat_scan_throw_well_formed.
Qed.

Lemma missing_attribute_fallback_witness :
  well_formed bare_attrib [triangle; triangle_aba] = true
  /\ (exists m,
        Indexed.loadOBJ (Some (bare_attrib, [triangle; triangle_aba])) = Ok m
        /\ (tinyobj.normals bare_attrib = [] ->
             Forall (fun v => normal v = Vec3 f0 f0 f1) (Indexed.vertices m))
        /\ (tinyobj.texcoords bare_attrib = [] ->
             Forall (fun v => texcoords v = Vec2 f0 f0) (Indexed.vertices m)))
  /\ (forallb triangles_only [triangle; triangle_aba] = true ->
       exists m,
         Flat.loadOBJ (Some (bare_attrib, [triangle; triangle_aba])) = Ok m
         /\ (tinyobj.normals bare_attrib = [] ->
              Forall (fun v => normal v = Vec3 f0 f0 f0) (Flat.vertices m))
         /\ (tinyobj.texcoords bare_attrib = [] ->
              Forall (fun v => texcoords v = Vec2 f0 f0) (Flat.vertices m)))
  /\ well_formed bare_attrib [quad] = true
  /\ forallb triangles_only [quad] = false
  /\ Flat.loadOBJ (Some (bare_attrib, [quad])) = Throw "Non-triangle face detected.".
Proof.
  split; [vm_compute; reflexivity|].
  split; [apply (missing_attribute_fallback bare_attrib [triangle; triangle_aba]);
          vm_compute; reflexivity|].
  split; [apply (missing_attribute_fallback bare_attrib [triangle; triangle_aba]);
          vm_compute; reflexivity|].
  split; [vm_compute; reflexivity|]. split; [vm_compute; reflexivity|].
  apply (missing_attribute_fallback bare_attrib [quad]); vm_compute; reflexivity.
Defined.

(** C5 as stated fails: on an input without normals the two builds put
    different normals into their vertices, so no single constant serves both
    call sites. *)
Lemma fallback_normals_disagree :
  tinyobj.normals bare_attrib = []
  /\ exists mI mF,
       Indexed.loadOBJ (Some (bare_attrib, [triangle])) = Ok mI
       /\ Flat.loadOBJ (Some (bare_attrib, [triangle])) = Ok mF
       /\ ~ exists c : vec3,
             Forall (fun v => normal v = c) (Indexed.vertices mI)
             /\ Forall (fun v => normal v = c) (Flat.vertices mF).
Proof.
  split; [reflexivity|]. eexists. eexists.
  split; [vm_compute; reflexivity|]. split; [vm_compute; reflexivity|].
  intros (c & HI & HF).
  apply Forall_cons in HI as [HI _]. apply Forall_cons in HF as [HF _].
  simpl in HI, HF. congruence.
Qed.

(** ** Strict triangulation *)

(** C6, as the code has it: of the two builds only the one of
    [src/main.cpp] checks the corner count of a face record.  On an input
    holding a face record whose count is not three it never returns a mesh,
    and on every consistent reader output it throws "Non-triangle face
    detected.".  The deduplicating build has no such mode: it raises no error
    for such a record, and a mesh it returns has three indices for every
    face record, whatever the record announces. *)
Theorem strict_build_rejects_non_triangles (a : tinyobj.attrib_t)
    (shapes : list tinyobj.shape_t) :
  (exists shape fv,
     shape ∈ shapes /\ fv ∈ tinyobj.num_face_vertices (tinyobj.mesh shape) /\ fv <> 3) ->
  (forall m, Flat.loadOBJ (Some (a, shapes)) <> Ok m)
  /\ (forallb (consistent a) shapes = true ->
      Flat.loadOBJ (Some (a, shapes)) = Throw "Non-triangle face detected.")
  /\ (forall what, Indexed.loadOBJ (Some (a, shapes)) <> Throw what)
  /\ (forall m, Indexed.loadOBJ (Some (a, shapes)) = Ok m ->
                Indexed.indexCount m = 3 * face_count shapes).
Proof.
  intros (shape & fv & Hs & Hfv & Hne).
  assert (forallb triangles_only shapes = false) as Hnt.
  { apply not_true_is_false. intros Hall.
    rewrite forallb_forall in Hall. apply list_elem_of_In, Hall in Hs.
    unfold triangles_only in Hs. rewrite forallb_forall in Hs.
    apply list_elem_of_In, Hs, Z.eqb_eq in Hfv. done. }
  split; [|split; [|split]].
  - intros m (Hall & _)%Flat_loadOBJ_Ok. congruence.
  - intros Hc. unfold Flat.loadOBJ. by rewrite Flat_scan_throw.
  - intros what. apply Indexed_loadOBJ_no_throw.
  - intros m (vs & Hvs & Hlen & ->)%Indexed_loadOBJ_Ok. simpl.
    pose proof (length_corner_stream Indexed.resolve a shapes) as H.
    by rewrite Hvs, length_fmap in H.
Qed.

Lemma strict_build_rejects_non_triangles_witness :
  (exists shape fv,
     shape ∈ [triangle; quad]
     /\ fv ∈ tinyobj.num_face_vertices (tinyobj.mesh shape) /\ fv <> 3)
  /\ forallb (consistent bare_attrib) [triangle; quad] = true
  /\ Flat.loadOBJ (Some (bare_attrib, [triangle; quad]))
     = Throw "Non-triangle face detected."
  /\ (forall what, Indexed.loadOBJ (Some (bare_attrib, [triangle; quad])) <> Throw what).
Proof.
  assert (exists shape fv,
            shape ∈ [triangle; quad]
            /\ fv ∈ tinyobj.num_face_vertices (tinyobj.mesh shape) /\ fv <> 3) as Hquad.
  { exists quad, 4. split; [right; left|]. split; [left|discriminate]. }
  split; [exact Hquad|]. split; [vm_compute; reflexivity|].
  split.
  - apply (proj1 (proj2 (strict_build_rejects_non_triangles bare_attrib [triangle; quad]
                           Hquad))).
    vm_compute. reflexivity.
  - apply (proj1 (proj2 (proj2 (strict_build_rejects_non_triangles bare_attrib
                                  [triangle; quad] Hquad)))).
Defined.

(** C6 as stated fails for the deduplicating build: of a face record
    announcing four corners it reads three and returns a mesh; nothing is
    raised. *)
Lemma indexed_build_accepts_quad :
  tinyobj.num_face_vertices (tinyobj.mesh quad) = [4]
  /\ Indexed.loadOBJ (Some (bare_attrib, [quad]))
     = Ok (Indexed.mkMesh
             [mkVertex (Vec3 f0 f0 f0) (Vec3 f0 f0 f1) (Vec2 f0 f0);
              mkVertex (Vec3 f1 f0 f0) (Vec3 f0 f0 f1) (Vec2 f0 f0);
              mkVertex (Vec3 f0 f1 f0) (Vec3 f0 f0 f1) (Vec2 f0 f0)]
             [0; 1; 2] 3 3)
  /\ ~ (exists what, Indexed.loadOBJ (Some (bare_attrib, [quad])) = Throw what).
Proof.
  split; [reflexivity|]. split; [vm_compute; reflexivity|].
  intros [what H]. vm_compute in H. discriminate H.
Qed.

(** The deduplicating build has no such check: of a face record announcing
    four corners it reads three and returns a mesh. *)
Example indexed_build_takes_quad :
  Indexed.loadOBJ (Some (bare_attrib, [quad]))
  = Ok (Indexed.mkMesh
          [mkVertex (Vec3 f0 f0 f0) (Vec3 f0 f0 f1) (Vec2 f0 f0);
           mkVertex (Vec3 f1 f0 f0) (Vec3 f0 f0 f1) (Vec2 f0 f0);
           mkVertex (Vec3 f0 f1 f0) (Vec3 f0 f0 f1) (Vec2 f0 f0)]
          [0; 1; 2] 3 3).
Proof. vm_compute. reflexivity. Qed.

(** ** Exact vertex equality *)

(** C7: [Vertex::operator==] holds exactly when each of the eight float
    components has the same 32 bits in both vertices, that is, exactly when
    the two values are identical; vertices that differ in any bit are kept
    apart by the deduplication. *)
Theorem Vertex_eq_is_bitwise (a b : Vertex) :
  length (components a) = 8%nat
  /\ (Vertex_eq a b = true
      <-> Forall2
            (fun f g => forall i, Z.testbit (float_bits f) i = Z.testbit (float_bits g) i)
            (components a) (components b))
  /\ (Vertex_eq a b = true <-> a = b)
  /\ (Vertex_eq a b = false ->
      Indexed.loc_vertices (dedup [a; b]) = [a; b]
      /\ Indexed.loc_indices (dedup [a; b]) = [0; 1]).
Proof.
  split; [done|]. split; [|split; [apply Vertex_eq_true|]].
  - rewrite Vertex_eq_true. split.
    + intros ->. apply Forall_Forall2_diag, Forall_forall. done.
    + intros H. apply components_inj.
      eapply (Forall2_impl _ (=)) in H; [|intros f g Hfg; by apply same_bits_iff].
      by apply list_eq_Forall2.
  - intros Hne.
    assert (a <> b) as Hab by (intros Heq%Vertex_eq_true; congruence).
    unfold dedup. simpl.
    unfold Indexed.add_vertex, Indexed.count, Indexed.subscript. simpl.
    rewrite lookup_empty. simpl. rewrite lookup_insert_eq. simpl.
    rewrite lookup_insert_ne, lookup_empty by done. simpl.
    rewrite lookup_insert_eq. done.
Qed.

(** [0.f] and [-0.f] are the same number and different bits: a vertex at
    [x = 0.f] and one at [x = -0.f] are two vertices of the mesh. *)
Example signed_zeros_stay_apart :
  Vertex_eq origin origin_neg0 = false
  /\ Indexed.loc_vertices (dedup [origin; origin_neg0]) = [origin; origin_neg0].
Proof. split; vm_compute; reflexivity. Qed.

(** ** Indices outside the source arrays *)

Lemma for_each_throw {A S : Type} (P : string -> Prop) (body : S -> A -> outcome S)
    (l : list A) (s : S) (what : string) :
  (forall s' x w, body s' x = Throw w -> P w) ->
  for_each body l s = Throw what -> P what.
Proof.
  intros Hbody. revert s. induction l as [|x l IH]; intros s H; [done|].
  simpl in H. destruct (body s x) as [s'| |] eqn:E; simpl in H.
  - by eapply IH.
  - injection H as ->. by eapply Hbody.
  - done.
Qed.

Lemma Flat_corner_no_throw (a : tinyobj.attrib_t) (shape : tinyobj.shape_t) (off : Z)
    (vertices : list Vertex) (v : Z) (what : string) :
  Flat.corner a shape off vertices v <> Throw what.
Proof.
  rewrite Flat_corner_eq, Flat_resolve_eq.
  destruct (corner_value _ a shape (off + v)) eqn:E; simpl; [done| |done].
  by apply corner_value_no_throw in E.
Qed.

Lemma Flat_scan_only_throw (a : tinyobj.attrib_t) (shapes : list tinyobj.shape_t)
    (vertices : list Vertex) (what : string) :
  for_each (Flat.shape_loop a) shapes vertices = Throw what ->
  what = "Non-triangle face detected.".
Proof.
  apply (for_each_throw (fun w => w = "Non-triangle face detected.")).
  clear. intros vertices shape w.
  unfold Flat.shape_loop.
  destruct (for_each (Flat.face a shape) _ (0, vertices)) as [s| |] eqn:E; simpl;
    [done| |done].
  intros [= <-]. revert E.
  apply (for_each_throw (fun w => w = "Non-triangle face detected.")). clear.
  intros [off vertices] fv w. unfold Flat.face.
  destruct (negb (fv =? 3)); [by intros [= <-]|].
  destruct (for_each (Flat.corner a shape off) [0; 1; 2] vertices) as [s| |] eqn:E;
    simpl; [done| |done].
  intros [= <-]. exfalso. revert E.
  apply (for_each_throw (fun _ => False)). intros vs v w' H.
  by apply Flat_corner_no_throw in H.
Qed.

Lemma Flat_loadOBJ_only_throw (a : tinyobj.attrib_t) (shapes : list tinyobj.shape_t)
    (what : string) :
  Flat.loadOBJ (Some (a, shapes)) = Throw what -> what = "Non-triangle face detected.".
Proof.
  unfold Flat.loadOBJ.
  destruct (for_each (Flat.shape_loop a) shapes []) as [vs| |] eqn:E; simpl.
  - unfold Flat.make_mesh, new_copy. by case_match.
  - intros [= <-]. by eapply Flat_scan_only_throw.
  - done.
Qed.

Lemma Flat_loadOBJ_well_formed (a : tinyobj.attrib_t) (shapes : list tinyobj.shape_t) :
  forallb triangles_only shapes = true ->
  well_formed a shapes = true <-> exists m, Flat.loadOBJ (Some (a, shapes)) = Ok m.
Proof.
  intros Htri. rewrite (well_formed_stream (Vec3 f0 f0 f0)). split.
  - intros (vs & Hvs & Hlen). eexists. apply Flat_loadOBJ_Ok. eauto.
  - intros (m & (_ & vs & Hvs & Hlen & _)%Flat_loadOBJ_Ok). eauto.
Qed.

(** C8, as the code has it: neither build checks an index against its
    source array and neither raises an error for one.  On a well-formed input
    (every scanned corner in range, the corner count within 32 bits) the
    deduplicating build returns a mesh, and so does the flat build when all
    faces are triangles; on any other such input the behaviour is undefined.
    The one error either build can raise after a successful parse is the
    flat build's "Non-triangle face detected.". *)
Theorem reads_are_unchecked (a : tinyobj.attrib_t) (shapes : list tinyobj.shape_t) :
  (if well_formed a shapes
   then exists m, Indexed.loadOBJ (Some (a, shapes)) = Ok m
   else exists u, Indexed.loadOBJ (Some (a, shapes)) = Undefined u)
  /\ (if forallb triangles_only shapes
      then if well_formed a shapes
           then exists m, Flat.loadOBJ (Some (a, shapes)) = Ok m
           else exists u, Flat.loadOBJ (Some (a, shapes)) = Undefined u
      else forall m, Flat.loadOBJ (Some (a, shapes)) <> Ok m)
  /\ (forall what, Indexed.loadOBJ (Some (a, shapes)) <> Throw what)
  /\ (forall what, Flat.loadOBJ (Some (a, shapes)) = Throw what ->
                   what = "Non-triangle face detected.").
Proof.
  split; [|split; [|split]].
  - destruct (well_formed a shapes) eqn:Hwf.
    + by apply Indexed_loadOBJ_well_formed.
    + destruct (Indexed.loadOBJ (Some (a, shapes))) as [m|what|u] eqn:E.
      * assert (well_formed a shapes = true)
          by (apply Indexed_loadOBJ_well_formed; eauto).
        congruence.
      * by apply Indexed_loadOBJ_no_throw in E.
      * eauto.
  - destruct (forallb triangles_only shapes) eqn:Htri.
    + destruct (well_formed a shapes) eqn:Hwf.
      * by apply Flat_loadOBJ_well_formed.
      * destruct (Flat.loadOBJ (Some (a, shapes))) as [m|what|u] eqn:E.
        -- assert (well_formed a shapes = true)
             by (apply Flat_loadOBJ_well_formed; eauto).
           congruence.
        -- exfalso. unfold Flat.loadOBJ in E. rewrite Flat_scan_eq in E by done.
           rewrite Flat_resolve_eq in E.
           destruct (collect _) as [vs| |] eqn:E'; simpl in E.
           ++ unfold Flat.make_mesh, new_copy in E. by case_match.
           ++ by apply corner_stream_no_throw in E'.
           ++ done.
        -- eauto.
    + intros m (Hall & _)%Flat_loadOBJ_Ok. congruence.
  - intros what. apply Indexed_loadOBJ_no_throw.
  - intros what. apply Flat_loadOBJ_only_throw.
Qed.

Lemma reads_are_unchecked_witness :
  (exists m, Indexed.loadOBJ (Some (full_attrib, [two_triangles])) = Ok m)
  /\ (exists u, Indexed.loadOBJ (Some (bare_attrib, [stray_position])) = Undefined u).
Proof.
  split.
  - apply (proj1 (reads_are_unchecked full_attrib [two_triangles])).
  - apply (proj1 (reads_are_unchecked bare_attrib [stray_position])).
Defined.

(** C8 as stated fails: a corner naming a position outside the position
    array raises nothing in either build; the array is read out of bounds. *)
Lemma stray_index_raises_nothing :
  corner_ok bare_attrib (bare_corner 7) = false
  /\ Indexed.loadOBJ (Some (bare_attrib, [stray_position])) = Undefined OutOfBoundsRead
  /\ Flat.loadOBJ (Some (bare_attrib, [stray_position])) = Undefined OutOfBoundsRead
  /\ ~ (exists what, Indexed.loadOBJ (Some (bare_attrib, [stray_position])) = Throw what)
  /\ ~ (exists what, Flat.loadOBJ (Some (bare_attrib, [stray_position])) = Throw what).
Proof.
  split; [vm_compute; reflexivity|]. split; [vm_compute; reflexivity|].
  split; [vm_compute; reflexivity|]. split; intros [what H]; vm_compute in H; discriminate H.
Qed.

(** ** Failing loads *)

(** C9, as the code has it: a parse failure makes either build throw at
    once, and a face record that is not a triangle makes the flat build end
    without a mesh; whenever a mesh is returned it covers the whole face
    stream, three entries per face record.  (An index outside its array is
    not among the errors: nothing is raised for it.) *)
Theorem errors_abort_the_load :
  Indexed.loadOBJ None = Throw "Failed to load OBJ"
  /\ Flat.loadOBJ None = Throw "Failed to load OBJ file."
  /\ forall (a : tinyobj.attrib_t) (shapes : list tinyobj.shape_t),
       (forallb triangles_only shapes = false ->
        forall m, Flat.loadOBJ (Some (a, shapes)) <> Ok m)
       /\ (forallb triangles_only shapes = false ->
           forallb (consistent a) shapes = true ->
           Flat.loadOBJ (Some (a, shapes)) = Throw "Non-triangle face detected.")
       /\ (forall m, Indexed.loadOBJ (Some (a, shapes)) = Ok m ->
                     Indexed.indexCount m = 3 * face_count shapes
                     /\ Z.of_nat (length (Indexed.indices m)) = 3 * face_count shapes)
       /\ (forall m, Flat.loadOBJ (Some (a, shapes)) = Ok m ->
                     Flat.vertexCount m = 3 * face_count shapes
                     /\ Z.of_nat (length (Flat.vertices m)) = 3 * face_count shapes).
Proof.
  split; [done|]. split; [done|]. intros a shapes. split; [|split; [|split]].
  - intros Hnt m (Hall & _)%Flat_loadOBJ_Ok. congruence.
  - intros Hnt Hc. unfold Flat.loadOBJ. by rewrite Flat_scan_throw.
  - intros m (vs & Hvs & Hlen & ->)%Indexed_loadOBJ_Ok. simpl.
    pose proof (length_corner_stream Indexed.resolve a shapes) as H.
    rewrite Hvs, length_fmap in H. by rewrite dedup_length_indices.
  - intros m (_ & vs & Hvs & Hlen & ->)%Flat_loadOBJ_Ok. simpl.
    pose proof (length_corner_stream Flat.resolve a shapes) as H.
    by rewrite Hvs, length_fmap in H.
Qed.

Lemma errors_abort_the_load_witness :
  forallb triangles_only [triangle; quad] = false
  /\ forallb (consistent bare_attrib) [triangle; quad] = true
  /\ Flat.loadOBJ (Some (bare_attrib, [triangle; quad]))
     = Throw "Non-triangle face detected.".
Proof.
  split; [vm_compute; reflexivity|]. split; [vm_compute; reflexivity|].
  apply (proj2 (proj2 errors_abort_the_load) bare_attrib [triangle; quad]);
    vm_compute; reflexivity.
Defined.

(** C9 as stated fails: a normal index outside the normals array makes the
    load fail without anything being raised; the flat build, like the
    indexed one, reads past the array. *)
Lemma stray_normal_load_does_not_raise :
  corner_ok full_attrib (tinyobj.mk_index 0 4 0) = false
  /\ Flat.loadOBJ (Some (full_attrib, [stray_normal])) = Undefined OutOfBoundsRead
  /\ Indexed.loadOBJ (Some (full_attrib, [stray_normal])) = Undefined OutOfBoundsRead
  /\ ~ (exists what, Flat.loadOBJ (Some (full_attrib, [stray_normal])) = Throw what)
  /\ ~ (exists what, Indexed.loadOBJ (Some (full_attrib, [stray_normal])) = Throw what).
Proof.
  split; [vm_compute; reflexivity|]. split; [vm_compute; reflexivity|].
  split; [vm_compute; reflexivity|]. split; intros [what H]; vm_compute in H; discriminate H.
Qed.

(** ** The indexed mesh expands to the flat one *)

Lemma shape_stream_no_fallback (a : tinyobj.attrib_t) (shape : tinyobj.shape_t) :
  tinyobj.normals a <> [] -> no_fallback a shape = true ->
  shape_stream Flat.resolve a shape = shape_stream Indexed.resolve a shape.
Proof.
  intros Hn Hnf. unfold shape_stream. apply list_fmap_ext.
  intros i k Hk. apply lookup_seqZ in Hk as [-> Hi]. unfold corner_value.
  destruct (vec_at _ (0 + Z.of_nat i)) as [idx| |] eqn:E; simpl; [|done|done].
  apply vec_at_Ok in E as [_ E]. rewrite Z.add_0_l, Nat2Z.id in E.
  rewrite Flat_resolve_eq, Indexed_resolve_eq.
  apply resolve_with_no_fallback; [done|].
  unfold no_fallback in Hnf. rewrite forallb_forall in Hnf.
  assert (In idx (scanned_corners shape)) as Hin.
  { apply list_elem_of_In, elem_of_take. exists i. split; [done|lia]. }
  apply Hnf in Hin. apply andb_prop in Hin as [Hin _].
  apply andb_prop in Hin as [Hin _]. apply andb_prop in Hin as [Hin _].
  by apply Z.leb_le.
Qed.

Lemma corner_stream_no_fallback (a : tinyobj.attrib_t) (shapes : list tinyobj.shape_t) :
  tinyobj.normals a <> [] -> forallb (no_fallback a) shapes = true ->
  corner_stream Flat.resolve a shapes = corner_stream Indexed.resolve a shapes.
Proof.
  intros Hn. induction shapes as [|shape shapes IH]; [done|].
  simpl. intros [Hs Hall]%andb_prop.
  rewrite !corner_stream_cons, IH, shape_stream_no_fallback; done.
Qed.

(** C10: when the file has normals and texture coordinates, no scanned
    corner falls back, and every face record announces three corners, a mesh
    returned by the deduplicating [loadOBJ] expands, index by index, to
    exactly the vertex array the flat [loadOBJ] returns for the same input. *)
Theorem indexed_mesh_expands_to_flat (a : tinyobj.attrib_t)
    (shapes : list tinyobj.shape_t) (mI : Indexed.Mesh) :
  tinyobj.normals a <> [] -> tinyobj.texcoords a <> [] ->
  forallb (no_fallback a) shapes = true ->
  forallb triangles_only shapes = true ->
  Indexed.loadOBJ (Some (a, shapes)) = Ok mI ->
  exists mF,
    Flat.loadOBJ (Some (a, shapes)) = Ok mF
    /\ replay (Indexed.vertices mI) (Indexed.indices mI) = Some <$> Flat.vertices mF.
Proof.
  intros Hn _ Hnf Htri (vs & Hvs & Hlen & ->)%Indexed_loadOBJ_Ok.
  exists (Flat.mkMesh vs (Z.of_nat (length vs))). split.
  - apply Flat_loadOBJ_Ok. split; [done|]. exists vs.
    by rewrite corner_stream_no_fallback.
  - simpl. apply replay_dedup. lia.
Qed.

Lemma indexed_mesh_expands_to_flat_witness :
  tinyobj.normals full_attrib <> [] /\ tinyobj.texcoords full_attrib <> []
  /\ forallb (no_fallback full_attrib) [two_triangles] = true
  /\ forallb triangles_only [two_triangles] = true
  /\ exists mI,
       Indexed.loadOBJ (Some (full_attrib, [two_triangles])) = Ok mI
       /\ exists mF,
            Flat.loadOBJ (Some (full_attrib, [two_triangles])) = Ok mF
            /\ replay (Indexed.vertices mI) (Indexed.indices mI)
               = Some <$> Flat.vertices mF.
Proof.
  split; [discriminate|]. split; [discriminate|].
  split; [vm_compute; reflexivity|]. split; [vm_compute; reflexivity|].
  eexists. split; [vm_compute; reflexivity|].
  apply (indexed_mesh_expands_to_flat full_attrib [two_triangles]);
    [discriminate|discriminate|vm_compute; reflexivity..].
Defined.

(** * Further properties of the loaders *)

(** ** The vertex array of the indexed mesh *)

(** X1: the vertex array of a mesh returned by the deduplicating [loadOBJ]
    holds no value twice. *)
Theorem mesh_vertices_NoDup (a : tinyobj.attrib_t) (shapes : list tinyobj.shape_t)
    (m : Indexed.Mesh) :
  Indexed.loadOBJ (Some (a, shapes)) = Ok m -> NoDup (Indexed.vertices m).
Proof.
  intros (vs & Hvs & Hlen & ->)%Indexed_loadOBJ_Ok. simpl.
  rewrite dedup_vertices by lia. apply NoDup_first_occurrences.
Qed.

Lemma mesh_vertices_NoDup_witness :
  exists m,
    Indexed.loadOBJ (Some (bare_attrib, [triangle_aba; triangle])) = Ok m
    /\ NoDup (Indexed.vertices m).
Proof.
  eexists. split; [vm_compute; reflexivity|].
  apply (mesh_vertices_NoDup bare_attrib [triangle_aba; triangle]).
  vm_compute. reflexivity.
Defined.

(** X2: the indexed mesh has no orphan vertex and no foreign one: every
    position of the vertex array occurs in the index array, and the values
    in the vertex array are exactly the values of the corner stream. *)
Theorem mesh_vertices_all_used (a : tinyobj.attrib_t) (shapes : list tinyobj.shape_t)
    (m : Indexed.Mesh) :
  Indexed.loadOBJ (Some (a, shapes)) = Ok m ->
  (forall i, 0 <= i < Indexed.vertexCount m -> i ∈ Indexed.indices m)
  /\ (forall v, v ∈ Indexed.vertices m <-> Ok v ∈ corner_stream Indexed.resolve a shapes).
Proof.
  intros (vs & Hvs & Hlen & ->)%Indexed_loadOBJ_Ok. simpl.
  assert (Z.of_nat (length vs) <= 2 ^ 32) as Hle by lia.
  destruct (dedup_inv_holds vs Hle) as [Hv Hmap Hidx]. rewrite Hv, Hvs. split.
  - intros i Hi.
    destruct (lookup_lt_is_Some_2 (first_occurrences vs) (Z.to_nat i)) as [v Hl]; [lia|].
    assert (Indexed.uniqueVertices (dedup vs) !! v = Some i) as Hm
      by (apply Hmap; split; [lia|done]).
    apply list_elem_of_lookup_2 in Hl. rewrite elem_of_first_occurrences in Hl.
    apply list_elem_of_lookup_1 in Hl as [k Hk].
    destruct (Forall2_lookup_l _ _ _ _ _ Hidx Hk) as (i' & Hi' & Hm').
    apply list_elem_of_lookup_2 in Hi'. congruence.
  - intros v. rewrite elem_of_first_occurrences. by rewrite (list_elem_of_fmap_inj Ok).
Qed.

Lemma mesh_vertices_all_used_witness :
  exists m,
    Indexed.loadOBJ (Some (full_attrib, [two_triangles])) = Ok m
    /\ (forall i, 0 <= i < Indexed.vertexCount m -> i ∈ Indexed.indices m)
    /\ (forall v, v ∈ Indexed.vertices m
                  <-> Ok v ∈ corner_stream Indexed.resolve full_attrib [two_triangles]).
Proof.
  eexists. split; [vm_compute; reflexivity|].
  apply (mesh_vertices_all_used full_attrib [two_triangles]). vm_compute. reflexivity.
Defined.

(** X3: when no two corners of the stream resolve to the same value, the
    deduplicating [loadOBJ] returns the corners themselves as the vertex
    array and the index array 0, 1, 2, ... *)
Theorem distinct_corners_identity_indices (a : tinyobj.attrib_t)
    (shapes : list tinyobj.shape_t) (m : Indexed.Mesh) :
  Indexed.loadOBJ (Some (a, shapes)) = Ok m ->
  NoDup (corner_stream Indexed.resolve a shapes) ->
  corner_stream Indexed.resolve a shapes = Ok <$> Indexed.vertices m
  /\ Indexed.indices m = seqZ 0 (3 * face_count shapes).
Proof.
  intros (vs & Hvs & Hlen & ->)%Indexed_loadOBJ_Ok Hnd. simpl.
  rewrite Hvs in Hnd. rewrite (NoDup_fmap Ok) in Hnd.
  assert (Z.of_nat (length vs) <= 2 ^ 32) as Hle by lia.
  destruct (dedup_inv_holds vs Hle) as [Hv Hmap Hidx].
  rewrite Hv, (first_occurrences_NoDup _ Hnd) in *. split; [done|].
  pose proof (length_corner_stream Indexed.resolve a shapes) as Hfc.
  rewrite Hvs, length_fmap in Hfc. rewrite <- Hfc.
  apply (list_eq_same_length _ _ (length vs)).
  - rewrite length_seqZ. lia.
  - symmetry. by eapply Forall2_length.
  - intros k i j Hk Hi Hj. apply lookup_seqZ in Hj as [-> _].
    destruct (lookup_lt_is_Some_2 vs k) as [v Hvk]; [done|].
    pose proof (Forall2_lookup_lr _ _ _ _ _ _ Hidx Hvk Hi) as Hm.
    apply Hmap in Hm as [Hi0 Hm].
    pose proof (NoDup_lookup _ _ _ _ Hnd Hm Hvk). lia.
Qed.

Lemma distinct_corners_identity_indices_witness :
  exists m,
    Indexed.loadOBJ (Some (bare_attrib, [triangle])) = Ok m
    /\ NoDup (corner_stream Indexed.resolve bare_attrib [triangle])
    /\ corner_stream Indexed.resolve bare_attrib [triangle] = Ok <$> Indexed.vertices m
    /\ Indexed.indices m = seqZ 0 (3 * face_count [triangle]).
Proof.
  assert (NoDup (corner_stream Indexed.resolve bare_attrib [triangle])) as Hnd.
  { vm_compute. repeat (constructor; [rewrite ?elem_of_cons, elem_of_nil; intros H;
      repeat destruct H as [H|H]; discriminate H || exact H|]). constructor. }
  eexists. split; [vm_compute; reflexivity|]. split; [exact Hnd|].
  apply (distinct_corners_identity_indices bare_attrib [triangle]);
    [vm_compute; reflexivity|exact Hnd].
Defined.

(** ** What the scans read *)

Lemma shape_stream_same_reads (R : tinyobj.attrib_t -> tinyobj.index_t -> outcome Vertex)
    (a : tinyobj.attrib_t) (shape shape' : tinyobj.shape_t) :
  tinyobj.indices (tinyobj.mesh shape) = tinyobj.indices (tinyobj.mesh shape') ->
  length (tinyobj.num_face_vertices (tinyobj.mesh shape))
  = length (tinyobj.num_face_vertices (tinyobj.mesh shape')) ->
  shape_stream R a shape = shape_stream R a shape'.
Proof. intros Hi Hn. unfold shape_stream, corner_value. by rewrite Hi, Hn. Qed.

(** X4: the deduplicating [loadOBJ] never looks at the corner counts the
    face records announce: two reader outputs with the same index arrays and
    the same number of face records per shape give the same result, whatever
    the announced counts are. *)
Theorem indexed_build_ignores_face_sizes (a : tinyobj.attrib_t)
    (shapes shapes' : list tinyobj.shape_t) :
  Forall2
    (fun shape shape' =>
       tinyobj.indices (tinyobj.mesh shape) = tinyobj.indices (tinyobj.mesh shape')
       /\ length (tinyobj.num_face_vertices (tinyobj.mesh shape))
          = length (tinyobj.num_face_vertices (tinyobj.mesh shape')))
    shapes shapes' ->
  Indexed.loadOBJ (Some (a, shapes)) = Indexed.loadOBJ (Some (a, shapes')).
Proof.
  intros H. unfold Indexed.loadOBJ. rewrite !Indexed_scan_eq.
  assert (corner_stream Indexed.resolve a shapes
          = corner_stream Indexed.resolve a shapes') as ->; [|done].
  induction H as [|shape shape' shapes shapes' [Hi Hn] _ IH]; [done|].
  by rewrite !corner_stream_cons, IH, (shape_stream_same_reads _ _ _ _ Hi Hn).
Qed.

Lemma indexed_build_ignores_face_sizes_witness :
  Indexed.loadOBJ (Some (bare_attrib, [quad]))
  = Indexed.loadOBJ
      (Some (bare_attrib,
             [tinyobj.mk_shape (tinyobj.mk_mesh
                [bare_corner 0; bare_corner 1; bare_corner 2; bare_corner 0] [3])])).
Proof.
  apply (indexed_build_ignores_face_sizes bare_attrib).
  constructor; [split; reflexivity|constructor].
Defined.

Lemma add_vertex_extends (st : Indexed.locals) (v : Vertex) :
  Indexed.loc_vertices st `prefix_of` Indexed.loc_vertices (Indexed.add_vertex st v)
  /\ Indexed.loc_indices st `prefix_of` Indexed.loc_indices (Indexed.add_vertex st v).
Proof.
  unfold Indexed.add_vertex, Indexed.subscript.
  repeat (case_match; simpl); simplify_eq/=;
    split; (done || by apply prefix_app_r).
Qed.

Lemma foldl_add_vertex_extends (vs : list Vertex) (st : Indexed.locals) :
  Indexed.loc_vertices st `prefix_of` Indexed.loc_vertices (foldl Indexed.add_vertex st vs)
  /\ Indexed.loc_indices st `prefix_of` Indexed.loc_indices (foldl Indexed.add_vertex st vs).
Proof.
  revert st. induction vs as [|v vs IH]; intros st; [done|]. simpl.
  destruct (add_vertex_extends st v) as [H1 H2].
  destruct (IH (Indexed.add_vertex st v)) as [H3 H4].
  split; etrans; eauto.
Qed.

Lemma corner_stream_app (R : tinyobj.attrib_t -> tinyobj.index_t -> outcome Vertex)
    (a : tinyobj.attrib_t) (shapes1 shapes2 : list tinyobj.shape_t) :
  corner_stream R a (shapes1 ++ shapes2)
  = corner_stream R a shapes1 ++ corner_stream R a shapes2.
Proof. unfold corner_stream. by rewrite fmap_app, concat_app. Qed.

Lemma fmap_Ok_app_inv (l1 l2 : list (outcome Vertex)) (vs : list Vertex) :
  l1 ++ l2 = Ok <$> vs ->
  exists vs1 vs2, vs = vs1 ++ vs2 /\ l1 = Ok <$> vs1 /\ l2 = Ok <$> vs2.
Proof.
  intros H. symmetry in H. apply fmap_app_inv in H as (vs1 & vs2 & H1 & H2 & H3).
  eauto.
Qed.

(** X5: shapes appended to the reader's output never disturb what the
    deduplicating [loadOBJ] built from the shapes before them: the vertex and
    index arrays for the shorter input are prefixes of those for the longer
    one. *)
Theorem indexed_mesh_grows_by_appending (a : tinyobj.attrib_t)
    (shapes1 shapes2 : list tinyobj.shape_t) (m1 m : Indexed.Mesh) :
  Indexed.loadOBJ (Some (a, shapes1)) = Ok m1 ->
  Indexed.loadOBJ (Some (a, shapes1 ++ shapes2)) = Ok m ->
  Indexed.vertices m1 `prefix_of` Indexed.vertices m
  /\ Indexed.indices m1 `prefix_of` Indexed.indices m.
Proof.
  intros (vs1 & Hvs1 & Hlen1 & ->)%Indexed_loadOBJ_Ok
         (vs & Hvs & Hlen & ->)%Indexed_loadOBJ_Ok. simpl.
  rewrite corner_stream_app in Hvs.
  apply fmap_Ok_app_inv in Hvs as (vs1' & vs2 & -> & H1 & H2).
  rewrite Hvs1 in H1. apply (inj (fmap Ok)) in H1 as <-.
  unfold dedup. rewrite foldl_app. apply foldl_add_vertex_extends.
Qed.

Lemma indexed_mesh_grows_by_appending_witness :
  exists m1 m,
    Indexed.loadOBJ (Some (bare_attrib, [triangle_aba])) = Ok m1
    /\ Indexed.loadOBJ (Some (bare_attrib, [triangle_aba] ++ [triangle])) = Ok m
    /\ Indexed.vertices m1 `prefix_of` Indexed.vertices m
    /\ Indexed.indices m1 `prefix_of` Indexed.indices m.
Proof.
  eexists. eexists. split; [vm_compute; reflexivity|].
  split; [vm_compute; reflexivity|].
  apply (indexed_mesh_grows_by_appending bare_attrib [triangle_aba] [triangle]);
    vm_compute; reflexivity.
Defined.

(** X6: the flat [loadOBJ] of two lists of shapes one after the other
    returns the two vertex arrays one after the other, when the total still
    fits the 32-bit count. *)
Theorem flat_mesh_of_appended_shapes (a : tinyobj.attrib_t)
    (shapes1 shapes2 : list tinyobj.shape_t) (m1 m2 : Flat.Mesh) :
  Flat.loadOBJ (Some (a, shapes1)) = Ok m1 ->
  Flat.loadOBJ (Some (a, shapes2)) = Ok m2 ->
  Flat.vertexCount m1 + Flat.vertexCount m2 < 2 ^ 32 ->
  Flat.loadOBJ (Some (a, shapes1 ++ shapes2))
  = Ok (Flat.mkMesh (Flat.vertices m1 ++ Flat.vertices m2)
          (Flat.vertexCount m1 + Flat.vertexCount m2)).
Proof.
  intros (Ht1 & vs1 & Hvs1 & Hlen1 & ->)%Flat_loadOBJ_Ok
         (Ht2 & vs2 & Hvs2 & Hlen2 & ->)%Flat_loadOBJ_Ok Hsum. simpl in *.
  apply Flat_loadOBJ_Ok. split; [by rewrite forallb_app, Ht1, Ht2|].
  exists (vs1 ++ vs2). rewrite corner_stream_app, Hvs1, Hvs2, fmap_app, length_app.
  split; [done|]. split; [lia|]. f_equal. lia.
Qed.

Lemma flat_mesh_of_appended_shapes_witness :
  exists m1 m2,
    Flat.loadOBJ (Some (bare_attrib, [triangle])) = Ok m1
    /\ Flat.loadOBJ (Some (bare_attrib, [triangle_aba])) = Ok m2
    /\ Flat.vertexCount m1 + Flat.vertexCount m2 < 2 ^ 32
    /\ Flat.loadOBJ (Some (bare_attrib, [triangle] ++ [triangle_aba]))
       = Ok (Flat.mkMesh (Flat.vertices m1 ++ Flat.vertices m2)
               (Flat.vertexCount m1 + Flat.vertexCount m2)).
Proof.
  eexists. eexists. split; [vm_compute; reflexivity|].
  split; [vm_compute; reflexivity|]. split; [vm_compute; reflexivity|].
  apply (flat_mesh_of_appended_shapes bare_attrib [triangle] [triangle_aba]);
    vm_compute; reflexivity.
Defined.

(** ** Input without faces *)

Lemma corner_stream_no_faces (R : tinyobj.attrib_t -> tinyobj.index_t -> outcome Vertex)
    (a : tinyobj.attrib_t) (shapes : list tinyobj.shape_t) :
  face_count shapes = 0 -> corner_stream R a shapes = [].
Proof.
  intros H. pose proof (length_corner_stream R a shapes) as Hlen. rewrite H in Hlen.
  by destruct (corner_stream R a shapes).
Qed.

(** X7: a file without faces, whatever its shapes and attribute arrays
    hold, loads as the empty mesh in both builds: no vertex, no index, counts
    zero, no error. *)
Theorem no_faces_empty_mesh (a : tinyobj.attrib_t) (shapes : list tinyobj.shape_t) :
  face_count shapes = 0 ->
  Indexed.loadOBJ (Some (a, shapes)) = Ok (Indexed.mkMesh [] [] 0 0)
  /\ Flat.loadOBJ (Some (a, shapes)) = Ok (Flat.mkMesh [] 0).
Proof.
  intros H. split.
  - apply Indexed_loadOBJ_Ok. exists []. by rewrite corner_stream_no_faces.
  - apply Flat_loadOBJ_Ok. split.
    + apply forallb_forall. intros shape Hin. unfold triangles_only.
      assert (tinyobj.num_face_vertices (tinyobj.mesh shape) = []) as ->; [|done].
      revert H Hin. clear. induction shapes as [|s shapes IH]; [done|].
      simpl. intros H [->|Hin].
      * destruct (tinyobj.num_face_vertices (tinyobj.mesh shape)); [done|].
        assert (0 <= face_count shapes); [|simpl in H; lia].
        clear. induction shapes; simpl; [done|]. unfold face_count in *. simpl. lia.
      * apply IH; [|done].
        assert (0 <= face_count shapes); [|lia].
        clear. induction shapes; simpl; [done|]. unfold face_count in *. simpl. lia.
    + exists []. by rewrite corner_stream_no_faces.
Qed.

Lemma no_faces_empty_mesh_witness :
  face_count [tinyobj.mk_shape (tinyobj.mk_mesh [bare_corner 9] [])] = 0
  /\ Indexed.loadOBJ
       (Some (bare_attrib, [tinyobj.mk_shape (tinyobj.mk_mesh [bare_corner 9] [])]))
     = Ok (Indexed.mkMesh [] [] 0 0)
  /\ Flat.loadOBJ
       (Some (bare_attrib, [tinyobj.mk_shape (tinyobj.mk_mesh [bare_corner 9] [])]))
     = Ok (Flat.mkMesh [] 0).
Proof.
  split; [reflexivity|].
  apply (no_faces_empty_mesh bare_attrib
           [tinyobj.mk_shape (tinyobj.mk_mesh [bare_corner 9] [])]).
  reflexivity.
Defined.

(** ** Corners without a normal or texture coordinate index *)

Lemma fetch_readable_lookup (arr : list float) (stride idx k : Z) :
  readable arr stride idx = true -> 0 <= k < stride ->
  exists v, arr !! Z.to_nat (stride * idx + k) = Some v /\ fetch arr stride idx k = Ok v.
Proof.
  intros H Hk. destruct (fetch_readable _ _ _ _ H Hk) as [v Hv]. exists v.
  split; [|done]. by apply fetch_Ok in Hv as (_ & _ & _ & Hv).
Qed.

(** X8: a corner whose normal and texture coordinate indices are negative
    resolves, even when the file does have normals and texture coordinates,
    to its three position floats, the build's own fallback normal ((0,0,1)
    indexed, (0,0,0) flat) and the texture coordinate (0,0). *)
Theorem negative_indices_fall_back (a : tinyobj.attrib_t) (idx : tinyobj.index_t) :
  readable (tinyobj.vertices a) 3 (tinyobj.vertex_index idx) = true ->
  tinyobj.normal_index idx < 0 -> tinyobj.texcoord_index idx < 0 ->
  exists px py pz,
    tinyobj.vertices a !! Z.to_nat (3 * tinyobj.vertex_index idx + 0) = Some px
    /\ tinyobj.vertices a !! Z.to_nat (3 * tinyobj.vertex_index idx + 1) = Some py
    /\ tinyobj.vertices a !! Z.to_nat (3 * tinyobj.vertex_index idx + 2) = Some pz
    /\ Indexed.resolve a idx
       = Ok (mkVertex (Vec3 px py pz) (Vec3 f0 f0 f1) (Vec2 f0 f0))
    /\ Flat.resolve a idx
       = Ok (mkVertex (Vec3 px py pz) (Vec3 f0 f0 f0) (Vec2 f0 f0)).
Proof.
  intros Hp Hn Ht.
  destruct (fetch_readable_lookup _ _ _ 0 Hp) as (px & Hlx & Hx); [lia|].
  destruct (fetch_readable_lookup _ _ _ 1 Hp) as (py & Hly & Hy); [lia|].
  destruct (fetch_readable_lookup _ _ _ 2 Hp) as (pz & Hlz & Hz); [lia|].
  exists px, py, pz. split; [done|]. split; [done|]. split; [done|].
  apply Z.leb_gt in Hn, Ht.
  unfold Indexed.resolve, Flat.resolve. rewrite Hx, Hy, Hz, Hn, Ht, !andb_false_r. done.
Qed.

Lemma negative_indices_fall_back_witness :
  exists px py pz,
    tinyobj.vertices full_attrib !! Z.to_nat (3 * 1 + 0) = Some px
    /\ tinyobj.vertices full_attrib !! Z.to_nat (3 * 1 + 1) = Some py
    /\ tinyobj.vertices full_attrib !! Z.to_nat (3 * 1 + 2) = Some pz
    /\ Indexed.resolve full_attrib (bare_corner 1)
       = Ok (mkVertex (Vec3 px py pz) (Vec3 f0 f0 f1) (Vec2 f0 f0))
    /\ Flat.resolve full_attrib (bare_corner 1)
       = Ok (mkVertex (Vec3 px py pz) (Vec3 f0 f0 f0) (Vec2 f0 f0)).
Proof.
  apply (negative_indices_fall_back full_attrib (bare_corner 1));
    [vm_compute; reflexivity|simpl; lia|simpl; lia].
Defined.

(** ** The order in which indices are handed out *)

Lemma dedup_all_used (vs : list Vertex) (i : Z) :
  Z.of_nat (length vs) <= 2 ^ 32 ->
  0 <= i < Z.of_nat (length (Indexed.loc_vertices (dedup vs))) ->
  exists k, Indexed.loc_indices (dedup vs) !! k = Some i.
Proof.
  intros Hle Hi. destruct (dedup_inv_holds vs Hle) as [Hv Hmap Hidx].
  rewrite Hv in Hi.
  destruct (lookup_lt_is_Some_2 (first_occurrences vs) (Z.to_nat i)) as [v Hl]; [lia|].
  assert (Indexed.uniqueVertices (dedup vs) !! v = Some i) as Hm
    by (apply Hmap; split; [lia|done]).
  apply list_elem_of_lookup_2 in Hl. rewrite elem_of_first_occurrences in Hl.
  apply list_elem_of_lookup_1 in Hl as [k Hk].
  destruct (Forall2_lookup_l _ _ _ _ _ Hidx Hk) as (i' & Hi' & Hm').
  exists k. congruence.
Qed.

Lemma dedup_take_prefix (vs : list Vertex) (k : nat) :
  Indexed.loc_indices (dedup (take k vs)) `prefix_of` Indexed.loc_indices (dedup vs).
Proof.
  rewrite <- (take_drop k vs) at 2. unfold dedup. rewrite foldl_app.
  apply foldl_add_vertex_extends.
Qed.

Lemma dedup_pushed_index (vs : list Vertex) (v : Vertex) :
  Z.of_nat (length vs) < 2 ^ 32 ->
  exists i,
    Indexed.loc_indices (Indexed.add_vertex (dedup vs) v)
    = Indexed.loc_indices (dedup vs) ++ [i]
    /\ 0 <= i <= Z.of_nat (length (Indexed.loc_vertices (dedup vs))).
Proof.
  intros Hlen. destruct (decide (v ∈ vs)) as [Hin|Hnin].
  - destruct (dedup_step_seen vs v) as (_ & j & i & _ & Hj & Hixs); [lia|done|].
    exists i. split; [done|].
    pose proof (dedup_indices_in_range vs ltac:(lia)) as Hr.
    rewrite Forall_forall in Hr. apply list_elem_of_lookup_2, Hr in Hj. lia.
  - destruct (dedup_step_new vs v Hlen Hnin) as [_ Hixs]. eexists. split; [done|]. lia.
Qed.

(** X9: the deduplicating [loadOBJ] hands indices out in order of first
    use: the index at position [k] of the index array is at most [k], and a
    positive index [i] appears only after [i - 1] has appeared. *)
Theorem indices_in_first_use_order (a : tinyobj.attrib_t)
    (shapes : list tinyobj.shape_t) (m : Indexed.Mesh) :
  Indexed.loadOBJ (Some (a, shapes)) = Ok m ->
  forall (k : nat) (i : Z), Indexed.indices m !! k = Some i ->
    0 <= i <= Z.of_nat k
    /\ (0 < i -> exists k', (k' < k)%nat /\ Indexed.indices m !! k' = Some (i - 1)).
Proof.
  intros (vs & Hvs & Hlen & ->)%Indexed_loadOBJ_Ok k i Hi. simpl in *.
  pose proof (lookup_lt_Some _ _ _ Hi) as Hk. rewrite dedup_length_indices in Hk.
  destruct (lookup_lt_is_Some_2 vs k Hk) as [v Hv].
  assert (length (take k vs) = k) as Htk by (rewrite length_take; lia).
  destruct (dedup_pushed_index (take k vs) v) as (i0 & Hpush & Hi0); [lia|].
  rewrite <- (dedup_take_S _ _ _ Hv) in Hpush.
  pose proof (dedup_length_indices (take k vs)) as Hlk. rewrite Htk in Hlk.
  assert (i0 = i) as ->.
  { assert (Indexed.loc_indices (dedup (take (S k) vs)) !! k = Some i0) as Hk0.
    { rewrite Hpush, lookup_app_r by lia. by rewrite Hlk, Nat.sub_diag. }
    pose proof (prefix_lookup_Some _ _ _ _ Hk0 (dedup_take_prefix vs (S k))).
    congruence. }
  pose proof (dedup_length_vertices (take k vs)) as Hlv. rewrite Htk in Hlv.
  split; [lia|]. intros Hpos.
  destruct (dedup_all_used (take k vs) (i - 1)) as [k' Hk']; [lia|lia|].
  exists k'. split.
  - apply lookup_lt_Some in Hk'. lia.
  - by eapply prefix_lookup_Some, dedup_take_prefix.
Qed.

Lemma indices_in_first_use_order_witness :
  exists m,
    Indexed.loadOBJ (Some (full_attrib, [two_triangles])) = Ok m
    /\ forall (k : nat) (i : Z), Indexed.indices m !! k = Some i ->
         0 <= i <= Z.of_nat k
         /\ (0 < i -> exists k', (k' < k)%nat /\ Indexed.indices m !! k' = Some (i - 1)).
Proof.
  eexists. split; [vm_compute; reflexivity|].
  apply (indices_in_first_use_order full_attrib [two_triangles]). vm_compute. reflexivity.
Defined.

(** * The hash of a vertex *)

Lemma lxor_size_t (p q : Z) : 0 <= p < 2 ^ 64 -> 0 <= q < 2 ^ 64 -> 0 <= Z.lxor p q < 2 ^ 64.
Proof.
  intros Hp Hq. split; [apply Z.lxor_nonneg; lia|].
  destruct (decide (Z.lxor p q = 0)) as [->|Hne]; [done|].
  assert (0 < Z.lxor p q) as Hpos
    by (pose proof (proj2 (Z.lxor_nonneg p q) ltac:(lia)); lia).
  apply Z.log2_lt_pow2; [done|].
  pose proof (Z.log2_lxor p q ltac:(lia) ltac:(lia)) as Hl.
  assert (Z.log2 p < 64) by (destruct (decide (p = 0)) as [->|]; [done|apply Z.log2_lt_pow2; lia]).
  assert (Z.log2 q < 64) by (destruct (decide (q = 0)) as [->|]; [done|apply Z.log2_lt_pow2; lia]).
  lia.
Qed.

Lemma to_size_t_range (n : Z) : 0 <= to_size_t n < 2 ^ 64.
Proof. unfold to_size_t. apply Z.mod_pos_bound. done. Qed.

(** X10: [std::hash<Vertex>] agrees with [Vertex::operator==], as an
    [unordered_map] needs: vertices that compare equal hash equal; and the
    hash of a vertex stays a [size_t] when the hashes of floats are. *)
Theorem hash_agrees_with_equality (hash_float : float -> Z) :
  (forall f, 0 <= hash_float f < 2 ^ 64) ->
  forall a b : Vertex,
    (Vertex_eq a b = true -> hash_Vertex hash_float a = hash_Vertex hash_float b)
    /\ 0 <= hash_Vertex hash_float a < 2 ^ 64.
Proof.
  intros Hf a b. split; [by intros ->%Vertex_eq_true|].
  unfold hash_Vertex. repeat apply lxor_size_t; auto using to_size_t_range.
Qed.

Lemma hash_agrees_with_equality_witness :
  (forall f, 0 <= sample_hash_float f < 2 ^ 64)
  /\ (Vertex_eq origin origin = true ->
      hash_Vertex sample_hash_float origin = hash_Vertex sample_hash_float origin)
  /\ 0 <= hash_Vertex sample_hash_float origin < 2 ^ 64.
Proof.
  assert (forall f, 0 <= sample_hash_float f < 2 ^ 64) as Hf.
  { intros f. unfold sample_hash_float. pose proof (float_bits_range f). lia. }
  split; [exact Hf|]. apply (hash_agrees_with_equality sample_hash_float Hf).
Defined.

(** X11: whatever [std::hash<float>] is, the hash of a vertex does not
    change when two coordinates of its position are exchanged, nor when its
    two texture coordinates are, and two equal coordinates cancel: vertices
    that differ in such ways always share a bucket. *)
Theorem hash_collides_on_exchanged_coordinates (hash_float : float -> Z)
    (px py pz c d : float) (n : vec3) (t : vec2) (tx ty : float) :
  hash_Vertex hash_float (mkVertex (Vec3 px py pz) n t)
  = hash_Vertex hash_float (mkVertex (Vec3 py px pz) n t)
  /\ hash_Vertex hash_float (mkVertex (Vec3 px py pz) n t)
     = hash_Vertex hash_float (mkVertex (Vec3 pz py px) n t)
  /\ hash_Vertex hash_float (mkVertex (Vec3 px py pz) n (Vec2 tx ty))
     = hash_Vertex hash_float (mkVertex (Vec3 px py pz) n (Vec2 ty tx))
  /\ hash_Vertex hash_float (mkVertex (Vec3 c c pz) n t)
     = hash_Vertex hash_float (mkVertex (Vec3 d d pz) n t).
Proof.
  unfold hash_Vertex. simpl. repeat split.
  - by rewrite (Z.lxor_comm (hash_float px)).
  - f_equal. f_equal.
    rewrite (Z.lxor_comm (hash_float px)), Z.lxor_assoc, (Z.lxor_comm (hash_float px)).
    by rewrite (Z.lxor_comm (hash_float pz) (hash_float py)), Z.lxor_assoc.
  - by rewrite (Z.lxor_comm (hash_float tx)).
  - by rewrite !Z.lxor_nilpotent.
Qed.

(** * The matrix helpers *)

Lemma store_ok (m : list float) (i : Z) (v : float) :
  0 <= i < Z.of_nat (length m) -> store m i v = Ok (<[Z.to_nat i := v]> m).
Proof.
  intros H. unfold store.
  assert ((0 <=? i) && (i <? Z.of_nat (length m)) = true) as ->; [|done].
  apply andb_true_iff. split; [apply Z.leb_le|apply Z.ltb_lt]; lia.
Qed.

Lemma store_overrun (m : list float) (i : Z) (v : float) :
  Z.of_nat (length m) <= i -> store m i v = Undefined BufferOverrun.
Proof.
  intros H. unfold store.
  assert ((i <? Z.of_nat (length m)) = false) as -> by (apply Z.ltb_ge; lia).
  by rewrite andb_false_r.
Qed.

(** A loop storing [g 0], ..., [g (n - 1)] at the first [n] places. *)
Lemma store_loop (g : Z -> float) (n : nat) (m : list float) :
  for_each (fun m i => store m i (g i)) (seqZ 0 (Z.of_nat n)) m
  = if Z.of_nat n <=? Z.of_nat (length m)
    then Ok ((g <$> seqZ 0 (Z.of_nat n)) ++ drop n m)
    else Undefined BufferOverrun.
Proof.
  induction n as [|n IH].
  - assert ((Z.of_nat 0 <=? Z.of_nat (length m)) = true) as ->
      by (apply Z.leb_le; lia).
    by rewrite drop_0.
  - rewrite seqZ_S, for_each_app, IH, Z.add_0_l. clear IH.
    destruct (Z.of_nat n <=? Z.of_nat (length m)) eqn:E.
    + apply Z.leb_le in E. cbn [mbind outcome_bind for_each].
      destruct (Z.of_nat (S n) <=? Z.of_nat (length m)) eqn:E'.
      * apply Z.leb_le in E'.
        rewrite store_ok
          by (rewrite length_app, length_fmap, length_seqZ, length_drop; lia).
        cbn [mbind outcome_bind]. f_equal.
        rewrite Nat2Z.id, fmap_app, <- app_assoc. simpl.
        rewrite insert_app_r_alt by (rewrite length_fmap, length_seqZ; lia).
        rewrite length_fmap, length_seqZ, Nat2Z.id, Nat.sub_diag. f_equal.
        destruct (drop n m) as [|y l] eqn:Hd.
        { apply (f_equal length) in Hd. rewrite length_drop in Hd. simpl in Hd. lia. }
        simpl. f_equal. replace (S n) with (n + 1)%nat by lia.
        by rewrite <- drop_drop, Hd.
      * apply Z.leb_gt in E'.
        rewrite store_overrun
          by (rewrite length_app, length_fmap, length_seqZ, length_drop; lia).
        done.
    + apply Z.leb_gt in E. simpl.
      assert ((Z.of_nat (S n) <=? Z.of_nat (length m)) = false) as ->; [|done].
      apply Z.leb_gt. lia.
Qed.

Lemma mat4_identity_eq (m : list float) :
  mat4_identity m
  = if 16 <=? Z.of_nat (length m)
    then Ok (identity16 ++ drop 16 m)
    else Undefined BufferOverrun.
Proof.
  unfold mat4_identity.
  exact (store_loop (fun i => if Z.rem i 5 =? 0 then f1 else f0) 16 m).
Qed.

Lemma store_head (l rest : list float) (i : Z) (v : float) :
  0 <= i < Z.of_nat (length l) ->
  store (l ++ rest) i v = Ok (<[Z.to_nat i := v]> l ++ rest).
Proof.
  intros H. rewrite store_ok by (rewrite length_app; lia).
  by rewrite insert_app_l by lia.
Qed.

Lemma mat4_translate_eq (m : list float) (x y z : float) :
  mat4_translate m x y z
  = if 16 <=? Z.of_nat (length m)
    then Ok ([f1; f0; f0; f0;  f0; f1; f0; f0;  f0; f0; f1; f0;  x; y; z; f1]
               ++ drop 16 m)
    else Undefined BufferOverrun.
Proof.
  unfold mat4_translate. rewrite mat4_identity_eq.
  destruct (16 <=? Z.of_nat (length m)); [|done]. cbn [mbind outcome_bind].
  rewrite store_head by (simpl; lia). cbn [mbind outcome_bind].
  rewrite store_head by (simpl; lia). cbn [mbind outcome_bind].
  rewrite store_head by (simpl; lia). done.
Qed.

Lemma mat4_rotate_y_eq (cosf sinf : float -> float) (m : list float) (angle : float) :
  mat4_rotate_y cosf sinf m angle
  = if 16 <=? Z.of_nat (length m)
    then Ok ([cosf angle; f0; sinf angle; f0;  f0; f1; f0; f0;
              fneg (sinf angle); f0; cosf angle; f0;  f0; f0; f0; f1]
               ++ drop 16 m)
    else Undefined BufferOverrun.
Proof.
  unfold mat4_rotate_y. rewrite mat4_identity_eq.
  destruct (16 <=? Z.of_nat (length m)); [|done]. cbn [mbind outcome_bind].
  rewrite store_head by (simpl; lia). cbn [mbind outcome_bind].
  rewrite store_head by (simpl; lia). cbn [mbind outcome_bind].
  rewrite store_head by (simpl; lia). cbn [mbind outcome_bind].
  rewrite store_head by (simpl; lia). done.
Qed.

Lemma mat4_perspective_eq (tanf : float -> float) (fadd fsub fmul fdiv : float -> float -> float)
    (m : list float) (fovy aspect znear zfar : float) :
  mat4_perspective tanf fadd fsub fmul fdiv m fovy aspect znear zfar
  = if 16 <=? Z.of_nat (length m)
    then
      let f := fdiv f1 (tanf (fmul fovy fhalf)) in
      Ok ([fdiv f aspect; f0; f0; f0;  f0; f; f0; f0;
           f0; f0; fdiv (fadd zfar znear) (fsub znear zfar); fminus1;
           f0; f0; fdiv (fmul (fmul f2 zfar) znear) (fsub znear zfar); f0]
            ++ drop 16 m)
    else Undefined BufferOverrun.
Proof.
  unfold mat4_perspective. rewrite mat4_identity_eq.
  destruct (16 <=? Z.of_nat (length m)); [|done]. cbn [mbind outcome_bind].
  rewrite store_head by (simpl; lia). cbn [mbind outcome_bind].
  rewrite store_head by (simpl; lia). cbn [mbind outcome_bind].
  rewrite store_head by (simpl; lia). cbn [mbind outcome_bind].
  rewrite store_head by (simpl; lia). cbn [mbind outcome_bind].
  rewrite store_head by (simpl; lia). cbn [mbind outcome_bind].
  rewrite store_head by (simpl; lia). done.
Qed.

(** X12: on an array of at least sixteen floats [mat4_identity] writes the
    identity matrix (entry [4 * c + r] is [1.f] when [r = c] and [0.f]
    otherwise) over the first sixteen, whatever they held, and leaves the
    rest alone; on a shorter array it writes past the end. *)
Theorem mat4_identity_writes_identity (m : list float) :
  (16 <= Z.of_nat (length m) ->
   exists m',
     mat4_identity m = Ok m'
     /\ length m' = length m
     /\ drop 16 m' = drop 16 m
     /\ forall r c : nat, (r < 4)%nat -> (c < 4)%nat ->
          m' !! (4 * c + r)%nat = Some (if decide (r = c) then f1 else f0))
  /\ (Z.of_nat (length m) < 16 -> mat4_identity m = Undefined BufferOverrun).
Proof.
  rewrite mat4_identity_eq. split.
  - intros H. apply Z.leb_le in H as Hb. rewrite Hb. eexists. split; [done|].
    split; [|split].
    + rewrite length_app, length_drop. simpl. lia.
    + by rewrite drop_app_length'.
    + intros r c Hr Hc. rewrite lookup_app_l by (simpl; lia).
      destruct r as [|[|[|[|r]]]]; [| | | |lia];
        (destruct c as [|[|[|[|c]]]]; [| | | |lia]); reflexivity.
  - intros H. apply Z.leb_gt in H. by rewrite H.
Qed.

Lemma mat4_identity_writes_identity_witness :
  16 <= Z.of_nat (length (replicate 17 f2))
  /\ exists m',
       mat4_identity (replicate 17 f2) = Ok m'
       /\ length m' = length (replicate 17 f2)
       /\ drop 16 m' = drop 16 (replicate 17 f2)
       /\ forall r c : nat, (r < 4)%nat -> (c < 4)%nat ->
            m' !! (4 * c + r)%nat = Some (if decide (r = c) then f1 else f0).
Proof.
  split; [vm_compute; discriminate|].
  apply (proj1 (mat4_identity_writes_identity (replicate 17 f2))).
  vm_compute. discriminate.
Defined.

(** X13: each matrix helper touches exactly the first sixteen floats of
    its array: on sixteen or more it returns an array of the same length with
    everything after the sixteenth unchanged, on fewer it writes past the
    end. *)
Theorem mat4_helpers_footprint (cosf sinf tanf : float -> float)
    (fadd fsub fmul fdiv : float -> float -> float)
    (m : list float) (angle x y z fovy aspect znear zfar : float) :
  Forall
    (fun result : outcome (list float) =>
       if 16 <=? Z.of_nat (length m)
       then exists m', result = Ok m' /\ length m' = length m /\ drop 16 m' = drop 16 m
       else result = Undefined BufferOverrun)
    [mat4_identity m;
     mat4_rotate_y cosf sinf m angle;
     mat4_translate m x y z;
     mat4_perspective tanf fadd fsub fmul fdiv m fovy aspect znear zfar].
Proof.
  rewrite mat4_identity_eq, mat4_rotate_y_eq, mat4_translate_eq, mat4_perspective_eq.
  destruct (16 <=? Z.of_nat (length m)) eqn:E; [|by repeat constructor].
  apply Z.leb_le in E.
  repeat constructor; (eexists; split; [done|]; split;
    [rewrite length_app, length_drop; simpl; lia|by rewrite drop_app_length']).
Qed.

Lemma closed_form_footprint (l m m1 : list float) :
  length l = 16%nat ->
  (if 16 <=? Z.of_nat (length m) then Ok (l ++ drop 16 m) else Undefined BufferOverrun)
  = Ok m1 ->
  length m1 = length m /\ drop 16 m1 = drop 16 m.
Proof.
  intros Hl. destruct (16 <=? Z.of_nat (length m)) eqn:E; [|done].
  apply Z.leb_le in E. intros [= <-]. split; [|by rewrite drop_app_length'].
  rewrite length_app, length_drop. lia.
Qed.

(** X14: the helpers do not accumulate transforms.  Each starts from the
    identity, so applying one to the result of another gives what it gives
    on the original array: a translation written after a rotation discards
    the rotation, and the other way round. *)
Theorem mat4_helpers_do_not_compose (cosf sinf : float -> float)
    (m m1 : list float) (angle x y z : float) :
  (mat4_rotate_y cosf sinf m angle = Ok m1 ->
   mat4_translate m1 x y z = mat4_translate m x y z)
  /\ (mat4_translate m x y z = Ok m1 ->
      mat4_rotate_y cosf sinf m1 angle = mat4_rotate_y cosf sinf m angle)
  /\ (mat4_translate m x y z = Ok m1 \/ mat4_rotate_y cosf sinf m angle = Ok m1 ->
      mat4_identity m1 = mat4_identity m).
Proof.
  split; [|split].
  - rewrite mat4_rotate_y_eq. intros [Hlen Hdrop]%closed_form_footprint; [|done].
    by rewrite !mat4_translate_eq, Hlen, Hdrop.
  - rewrite mat4_translate_eq. intros [Hlen Hdrop]%closed_form_footprint; [|done].
    by rewrite !mat4_rotate_y_eq, Hlen, Hdrop.
  - rewrite mat4_translate_eq, mat4_rotate_y_eq.
    intros [[Hlen Hdrop]%closed_form_footprint|[Hlen Hdrop]%closed_form_footprint];
      [|done| |done]; by rewrite !mat4_identity_eq, Hlen, Hdrop.
Qed.

Lemma mat4_helpers_do_not_compose_witness :
  exists m1,
    mat4_rotate_y sample_unary sample_unary (replicate 16 f2) f1 = Ok m1
    /\ mat4_translate m1 f1 f2 f0 = mat4_translate (replicate 16 f2) f1 f2 f0.
Proof.
  eexists. split; [vm_compute; reflexivity|].
  apply (proj1 (mat4_helpers_do_not_compose sample_unary sample_unary
                  (replicate 16 f2) _ f1 f1 f2 f0)).
  vm_compute. reflexivity.
Defined.

Lemma fneg_involutive (f : float) : fneg (fneg f) = f.
Proof.
  destruct f as [b0 b1 b2 b3]. unfold fneg. simpl. f_equal.
  destruct b3; reflexivity.
Qed.

(** Unary minus takes [1.f] to [-1.f] and [0.f] to [-0.f]. *)
Example fneg_constants : fneg f1 = fminus1 /\ fneg f0 = fneg0 /\ fneg fneg0 = f0.
Proof. repeat split; reflexivity. Qed.

(** X15: [mat4_translate] writes the identity with [x], [y], [z] at entries
    12, 13, 14; with three zeros it writes exactly what [mat4_identity]
    writes. *)
Theorem mat4_translate_entries (m : list float) (x y z : float) :
  16 <= Z.of_nat (length m) ->
  exists m',
    mat4_translate m x y z = Ok m'
    /\ m' !! 12%nat = Some x /\ m' !! 13%nat = Some y /\ m' !! 14%nat = Some z
    /\ (forall k : nat, (k < 16)%nat -> k <> 12%nat -> k <> 13%nat -> k <> 14%nat ->
          m' !! k = identity16 !! k)
    /\ mat4_translate m f0 f0 f0 = mat4_identity m.
Proof.
  intros H. rewrite !mat4_translate_eq, mat4_identity_eq.
  apply Z.leb_le in H. rewrite H. eexists. split; [done|].
  do 3 (split; [done|]). split; [|done].
  intros k Hk H12 H13 H14. rewrite lookup_app_l by (simpl; lia).
  do 16 (destruct k as [|k]; [done|]). lia.
Qed.

Lemma mat4_translate_entries_witness :
  16 <= Z.of_nat (length (replicate 16 f2))
  /\ exists m',
       mat4_translate (replicate 16 f2) f1 f2 fhalf = Ok m'
       /\ m' !! 12%nat = Some f1 /\ m' !! 13%nat = Some f2 /\ m' !! 14%nat = Some fhalf
       /\ (forall k : nat, (k < 16)%nat -> k <> 12%nat -> k <> 13%nat -> k <> 14%nat ->
             m' !! k = identity16 !! k)
       /\ mat4_translate (replicate 16 f2) f0 f0 f0 = mat4_identity (replicate 16 f2).
Proof.
  split; [vm_compute; discriminate|].
  apply (mat4_translate_entries (replicate 16 f2) f1 f2 fhalf). vm_compute. discriminate.
Defined.

(** X16: [mat4_rotate_y] writes the cosine at entries 0 and 10, the sine at
    entry 2 and its negation at entry 8, and the identity everywhere else:
    the second row and column are never touched.  Where the cosine is [1.f]
    and the sine [0.f], the result still differs from the identity matrix:
    entry 8 is [-0.f]. *)
Theorem mat4_rotate_y_entries (cosf sinf : float -> float) (m : list float)
    (angle : float) :
  16 <= Z.of_nat (length m) ->
  exists m',
    mat4_rotate_y cosf sinf m angle = Ok m'
    /\ m' !! 0%nat = Some (cosf angle) /\ m' !! 10%nat = Some (cosf angle)
    /\ m' !! 2%nat = Some (sinf angle) /\ m' !! 8%nat = Some (fneg (sinf angle))
    /\ (forall k : nat, (k < 16)%nat -> k <> 0%nat -> k <> 2%nat -> k <> 8%nat ->
          k <> 10%nat -> m' !! k = identity16 !! k)
    /\ (cosf angle = f1 -> sinf angle = f0 ->
        m' = <[8%nat := fneg0]> identity16 ++ drop 16 m
        /\ mat4_identity m <> Ok m').
Proof.
  intros H. rewrite mat4_rotate_y_eq, mat4_identity_eq.
  apply Z.leb_le in H. rewrite H. eexists. split; [done|].
  do 4 (split; [done|]). split.
  - intros k Hk H0 H2 H8 H10. rewrite lookup_app_l by (simpl; lia).
    do 16 (destruct k as [|k]; [done|]). lia.
  - intros -> ->. split; [done|]. intros [=].
Qed.

Lemma mat4_rotate_y_entries_witness :
  16 <= Z.of_nat (length (replicate 16 f2))
  /\ exists m',
       mat4_rotate_y (fun _ => f1) (fun _ => f0) (replicate 16 f2) f0 = Ok m'
       /\ m' = <[8%nat := fneg0]> identity16 ++ drop 16 (replicate 16 f2)
       /\ mat4_identity (replicate 16 f2) <> Ok m'.
Proof.
  split; [vm_compute; discriminate|].
  destruct (mat4_rotate_y_entries (fun _ => f1) (fun _ => f0) (replicate 16 f2) f0)
    as (m' & Hm & _ & _ & _ & _ & _ & Hzero); [vm_compute; discriminate|].
  exists m'. split; [exact Hm|]. apply Hzero; reflexivity.
Defined.

(** * Ownership of the mesh arrays *)

Lemma new_array_fresh (h : heap) (block : array) :
  h !! (new_array h block).1 = None.
Proof. simpl. apply not_elem_of_dom, is_fresh. Qed.

Lemma delete_array_live (h : heap) (p : positive) (block : array) :
  h !! p = Some block -> delete_array (Some p) h = Some (delete p h).
Proof. intros H. simpl. by rewrite H. Qed.

(** X17: what the indexed [loadOBJ] leaves on the free store.  It adds two
    blocks, at distinct addresses that were not in use, holding the vertex
    and index arrays of the mesh; every block that was there stays as it
    was; and [freeMesh] on the returned mesh gives back the free store as it
    was before the load, with the pointers null and both counts zero. *)
Theorem indexed_load_then_free (file : tinyobj.parsed) (h h' : heap)
    (mesh : IndexedHeap.Mesh) :
  IndexedHeap.loadOBJ file h = Ok (mesh, h') ->
  (exists m,
     Indexed.loadOBJ file = Ok m
     /\ IndexedHeap.contents mesh h' = Some (Indexed.vertices m, Indexed.indices m)
     /\ IndexedHeap.vertexCount mesh = Z.of_nat (length (Indexed.vertices m))
     /\ IndexedHeap.indexCount mesh = Z.of_nat (length (Indexed.indices m)))
  /\ (exists pv pi,
        IndexedHeap.vertices mesh = Some pv /\ IndexedHeap.indices mesh = Some pi
        /\ pv <> pi /\ h !! pv = None /\ h !! pi = None
        /\ dom h' = {[pv; pi]} ∪ dom h)
  /\ (forall p block, h !! p = Some block -> h' !! p = Some block)
  /\ IndexedHeap.freeMesh mesh h' = Some (IndexedHeap.mkMesh None None 0 0, h).
Proof.
  unfold IndexedHeap.loadOBJ. intros (m & Hm & H)%bind_Ok.
  set (pv := fresh (dom h)) in *.
  set (h1 := <[pv := VertexArray (Indexed.vertices m)]> h) in *.
  set (pi := fresh (dom h1)) in *.
  simpl in H. fold pv h1 pi in H. injection H as <- <-.
  assert (h !! pv = None) as Hpv by apply not_elem_of_dom, is_fresh.
  assert (h1 !! pi = None) as Hpi by apply not_elem_of_dom, is_fresh.
  assert (pv <> pi) as Hne.
  { intros Heq. rewrite <- Heq in Hpi. unfold h1 in Hpi.
    by rewrite lookup_insert_eq in Hpi. }
  assert (h !! pi = None) as Hpi'.
  { unfold h1 in Hpi. by rewrite lookup_insert_ne in Hpi. }
  split; [|split; [|split]].
  - exists m. split; [done|]. split.
    + unfold IndexedHeap.contents. simpl.
      rewrite lookup_insert_ne by done. unfold h1.
      by rewrite !lookup_insert_eq.
    + destruct file as [[a shapes]|]; [|done].
      apply Indexed_loadOBJ_Ok in Hm as (vs & _ & _ & ->). simpl.
      by rewrite dedup_length_indices.
  - exists pv, pi. do 5 (split; [done|]). unfold h1.
    rewrite !dom_insert_L. set_solver.
  - intros p block Hp. rewrite lookup_insert_ne by congruence.
    unfold h1. rewrite lookup_insert_ne by congruence. done.
  - unfold IndexedHeap.freeMesh. simpl.
    rewrite lookup_insert_ne by done. unfold h1 at 1. rewrite lookup_insert_eq. simpl.
    rewrite lookup_delete_ne by done. rewrite lookup_insert_eq. simpl.
    do 2 f_equal. rewrite delete_insert_ne by done.
    rewrite delete_insert_id by (by rewrite lookup_delete_ne).
    unfold h1. by rewrite delete_insert_id.
Qed.

Lemma indexed_load_then_free_witness :
  exists mesh h',
    IndexedHeap.loadOBJ (Some (bare_attrib, [triangle_aba]))
      {[ 1%positive := IndexArray [7] ]} = Ok (mesh, h')
    /\ IndexedHeap.freeMesh mesh h'
       = Some (IndexedHeap.mkMesh None None 0 0, {[ 1%positive := IndexArray [7] ]}).
Proof.
  eexists. eexists. split; [vm_compute; reflexivity|].
  apply (indexed_load_then_free (Some (bare_attrib, [triangle_aba]))
           {[ 1%positive := IndexArray [7] ]}).
  vm_compute. reflexivity.
Defined.

Lemma delete_array_Some (p : option positive) (h h' : heap) :
  delete_array p h = Some h' ->
  (p = None /\ h' = h)
  \/ (exists a, p = Some a /\ is_Some (h !! a) /\ h' = delete a h).
Proof.
  destruct p as [a|]; simpl; [|intros [= <-]; by left].
  destruct (h !! a) eqn:E; [|done]. intros [= <-]. right. eauto.
Qed.

(** X18: [freeMesh] may be called again on the mesh it has freed: the
    second call finds null pointers, deletes nothing and changes nothing. *)
Theorem freeMesh_twice (mesh mesh' : IndexedHeap.Mesh) (h h' : heap) :
  IndexedHeap.freeMesh mesh h = Some (mesh', h') ->
  mesh' = IndexedHeap.mkMesh None None 0 0
  /\ IndexedHeap.freeMesh mesh' h' = Some (mesh', h').
Proof.
  unfold IndexedHeap.freeMesh. intros H.
  destruct (delete_array (IndexedHeap.vertices mesh) h) as [h1|]; [|done]. simpl in H.
  destruct (delete_array (IndexedHeap.indices mesh) h1) as [h2|]; [|done]. simpl in H.
  by injection H as <- <-.
Qed.

Lemma freeMesh_twice_witness :
  exists mesh' h',
    IndexedHeap.freeMesh (IndexedHeap.mkMesh (Some 1%positive) (Some 2%positive) 1 3)
      {[ 1%positive := VertexArray [origin]; 2%positive := IndexArray [0; 0; 0] ]}
    = Some (mesh', h')
    /\ mesh' = IndexedHeap.mkMesh None None 0 0
    /\ IndexedHeap.freeMesh mesh' h' = Some (mesh', h').
Proof.
  eexists. eexists. split; [vm_compute; reflexivity|].
  apply (freeMesh_twice (IndexedHeap.mkMesh (Some 1%positive) (Some 2%positive) 1 3) _
           {[ 1%positive := VertexArray [origin]; 2%positive := IndexArray [0; 0; 0] ]}).
  vm_compute. reflexivity.
Defined.

(** X19: [freeMesh] nulls only the struct it is given.  A copy of the
    struct taken before the call still holds the old pointers, and
    [freeMesh] on that copy deletes a block a second time; likewise a mesh
    whose two pointers are the same block cannot be freed. *)
Theorem freeMesh_stale_copy (mesh mesh' : IndexedHeap.Mesh) (h h' : heap) :
  (IndexedHeap.freeMesh mesh h = Some (mesh', h') ->
   IndexedHeap.vertices mesh <> None \/ IndexedHeap.indices mesh <> None ->
   IndexedHeap.freeMesh mesh h' = None)
  /\ (IndexedHeap.vertices mesh <> None ->
      IndexedHeap.vertices mesh = IndexedHeap.indices mesh ->
      IndexedHeap.freeMesh mesh h = None).
Proof.
  unfold IndexedHeap.freeMesh. split.
  - intros H Hp.
    destruct (delete_array (IndexedHeap.vertices mesh) h) as [h1|] eqn:E1; [|done].
    simpl in H.
    destruct (delete_array (IndexedHeap.indices mesh) h1) as [h2|] eqn:E2; [|done].
    simpl in H. injection H as <- <-.
    apply delete_array_Some in E1 as [[Hv ->]|(pv & Hv & _ & ->)];
      apply delete_array_Some in E2 as [[Hi ->]|(pi & Hi & Hlive & ->)];
      rewrite Hv, Hi in *; simpl.
    + by destruct Hp.
    + by rewrite lookup_delete_eq.
    + by rewrite lookup_delete_eq.
    + destruct (decide (pv = pi)) as [->|Hne].
      * rewrite lookup_delete_eq in Hlive. by destruct Hlive.
      * rewrite lookup_delete_ne, lookup_delete_eq by done. done.
  - intros Hv Heq. rewrite <- Heq.
    destruct (IndexedHeap.vertices mesh) as [pv|]; [|done]. simpl.
    destruct (h !! pv); [|done]. simpl. by rewrite lookup_delete_eq.
Qed.

Lemma freeMesh_stale_copy_witness :
  exists mesh' h',
    IndexedHeap.freeMesh (IndexedHeap.mkMesh (Some 1%positive) (Some 2%positive) 1 3)
      {[ 1%positive := VertexArray [origin]; 2%positive := IndexArray [0; 0; 0] ]}
    = Some (mesh', h')
    /\ IndexedHeap.freeMesh (IndexedHeap.mkMesh (Some 1%positive) (Some 2%positive) 1 3) h'
       = None.
Proof.
  destruct (IndexedHeap.freeMesh (IndexedHeap.mkMesh (Some 1%positive) (Some 2%positive) 1 3)
              {[ 1%positive := VertexArray [origin]; 2%positive := IndexArray [0; 0; 0] ]})
    as [[mesh' h']|] eqn:E; [|vm_compute in E; discriminate E].
  exists mesh', h'. split; [reflexivity|].
  apply (proj1 (freeMesh_stale_copy _ mesh' _ h') E). left. discriminate.
Defined.

(** X20: the plain viewer's [loadOBJ] adds one block, at an address that
    was not in use, holding the vertex array; its [freeMesh] on the returned
    mesh gives the free store back as it was, and a second [freeMesh] on the
    freed mesh changes nothing. *)
Theorem flat_load_then_free (file : tinyobj.parsed) (h h' : heap)
    (mesh : FlatHeap.Mesh) :
  FlatHeap.loadOBJ file h = Ok (mesh, h') ->
  (exists m pv,
     Flat.loadOBJ file = Ok m
     /\ FlatHeap.vertices mesh = Some pv /\ h !! pv = None
     /\ h' = <[pv := VertexArray (Flat.vertices m)]> h
     /\ FlatHeap.vertexCount mesh = Z.of_nat (length (Flat.vertices m)))
  /\ FlatHeap.freeMesh mesh h' = Some (FlatHeap.mkMesh None 0, h)
  /\ FlatHeap.freeMesh (FlatHeap.mkMesh None 0) h = Some (FlatHeap.mkMesh None 0, h).
Proof.
  unfold FlatHeap.loadOBJ. intros (m & Hm & H)%bind_Ok.
  set (pv := fresh (dom h)) in *. simpl in H. fold pv in H. injection H as <- <-.
  assert (h !! pv = None) as Hpv by apply not_elem_of_dom, is_fresh.
  split; [|split; [|done]].
  - exists m, pv. do 4 (split; [done|]).
    destruct file as [[a shapes]|]; [|done].
    by apply Flat_loadOBJ_Ok in Hm as (_ & vs & _ & _ & ->).
  - unfold FlatHeap.freeMesh. simpl. rewrite lookup_insert_eq. simpl.
    by rewrite delete_insert_id.
Qed.

Lemma flat_load_then_free_witness :
  exists mesh h',
    FlatHeap.loadOBJ (Some (bare_attrib, [triangle])) ∅ = Ok (mesh, h')
    /\ FlatHeap.freeMesh mesh h' = Some (FlatHeap.mkMesh None 0, ∅).
Proof.
  eexists. eexists. split; [vm_compute; reflexivity|].
  apply (flat_load_then_free (Some (bare_attrib, [triangle])) ∅). vm_compute. reflexivity.
Defined.

(** * The two builds on the same input *)

Lemma resolve_with_other_fallback (fb fb' : vec3) (a : tinyobj.attrib_t)
    (idx : tinyobj.index_t) (v : Vertex) :
  resolve_with fb a idx = Ok v ->
  exists v',
    resolve_with fb' a idx = Ok v'
    /\ position v = position v' /\ texcoords v = texcoords v'.
Proof.
  unfold resolve_with. intros H.
  apply bind_Ok in H as (px & -> & H). apply bind_Ok in H as (py & -> & H).
  apply bind_Ok in H as (pz & -> & H). apply bind_Ok in H as (n & Hn & H).
  apply bind_Ok in H as (t & -> & [= <-]). simpl.
  destruct (negb (bool_decide (tinyobj.normals a = []))
            && (0 <=? tinyobj.normal_index idx)).
  - rewrite Hn. simpl. eauto.
  - simpl. eauto.
Qed.

Lemma fmap_resolved_related {X : Type} (f g : X -> outcome Vertex)
    (R : Vertex -> Vertex -> Prop) (xs : list X) (vs : list Vertex) :
  (forall x v, f x = Ok v -> exists v', g x = Ok v' /\ R v v') ->
  f <$> xs = Ok <$> vs ->
  exists vs', g <$> xs = Ok <$> vs' /\ Forall2 R vs vs'.
Proof.
  intros Hfg. revert vs. induction xs as [|x xs IH]; intros vs H.
  - destruct vs; [|done]. exists []. split; [done|constructor].
  - destruct vs as [|v vs]; [done|]. rewrite !fmap_cons in H. injection H as Hx Hxs.
    destruct (Hfg _ _ Hx) as (v' & Hv' & Hr). destruct (IH _ Hxs) as (vs' & Hvs' & Hrs).
    exists (v' :: vs'). rewrite !fmap_cons, Hv', Hvs'. split; [done|by constructor].
Qed.

Lemma corner_stream_other_fallback (fb fb' : vec3) (a : tinyobj.attrib_t)
    (shapes : list tinyobj.shape_t) (vs : list Vertex) :
  corner_stream (resolve_with fb) a shapes = Ok <$> vs ->
  exists vs',
    corner_stream (resolve_with fb') a shapes = Ok <$> vs'
    /\ Forall2 (fun v v' => position v = position v' /\ texcoords v = texcoords v') vs vs'.
Proof.
  revert vs. induction shapes as [|shape shapes IH]; intros vs H.
  - destruct vs; [|done]. exists []. split; [done|constructor].
  - rewrite corner_stream_cons in H.
    apply fmap_Ok_app_inv in H as (vs1 & vs2 & -> & H1 & H2).
    destruct (IH _ H2) as (vs2' & Hvs2' & Hr2).
    unfold shape_stream in H1.
    eapply (fmap_resolved_related _
              (corner_value (resolve_with fb') a shape)
              (fun v v' => position v = position v' /\ texcoords v = texcoords v'))
      in H1 as (vs1' & Hvs1' & Hr1).
    2:{ intros k v Hk. unfold corner_value in *.
        apply bind_Ok in Hk as (idx & -> & Hk). simpl.
        by apply (resolve_with_other_fallback fb). }
    exists (vs1' ++ vs2'). rewrite corner_stream_cons, fmap_app.
    unfold shape_stream at 1. rewrite Hvs1', Hvs2'. split; [done|].
    by apply Forall2_app.
Qed.

(** X21: on every input whose faces are all triangles, the flat [loadOBJ]
    returns a mesh whenever the deduplicating one does, with as many
    vertices as the indexed mesh has indices, and the two agree, corner by
    corner, on position and texture coordinate, whether or not a fallback
    applied: expanding the indexed mesh and reading the flat one differ at
    most in the normals. *)
Theorem builds_agree_but_for_normals (a : tinyobj.attrib_t)
    (shapes : list tinyobj.shape_t) (mI : Indexed.Mesh) :
  forallb triangles_only shapes = true ->
  Indexed.loadOBJ (Some (a, shapes)) = Ok mI ->
  exists mF,
    Flat.loadOBJ (Some (a, shapes)) = Ok mF
    /\ Flat.vertexCount mF = Indexed.indexCount mI
    /\ Forall2
         (fun o v' =>
            exists v, o = Some v
                      /\ position v = position v' /\ texcoords v = texcoords v')
         (replay (Indexed.vertices mI) (Indexed.indices mI)) (Flat.vertices mF).
Proof.
  intros Htri (vs & Hvs & Hlen & ->)%Indexed_loadOBJ_Ok.
  rewrite Indexed_resolve_eq in Hvs.
  destruct (corner_stream_other_fallback _ (Vec3 f0 f0 f0) _ _ _ Hvs)
    as (vs' & Hvs' & Hr).
  pose proof (Forall2_length _ _ _ Hr) as Hl.
  exists (Flat.mkMesh vs' (Z.of_nat (length vs'))). split; [|split].
  - apply Flat_loadOBJ_Ok. split; [done|]. exists vs'. rewrite Flat_resolve_eq.
    split; [done|]. split; [lia|done].
  - simpl. by rewrite Hl.
  - simpl. rewrite replay_dedup by lia.
    apply Forall2_fmap_l. eapply Forall2_impl; [exact Hr|].
    intros v v' [Hp Ht]. eauto.
Qed.

Lemma builds_agree_but_for_normals_witness :
  forallb triangles_only [triangle; triangle_aba] = true
  /\ exists mI,
       Indexed.loadOBJ (Some (bare_attrib, [triangle; triangle_aba])) = Ok mI
       /\ exists mF,
            Flat.loadOBJ (Some (bare_attrib, [triangle; triangle_aba])) = Ok mF
            /\ Flat.vertexCount mF = Indexed.indexCount mI
            /\ Forall2
                 (fun o v' =>
                    exists v, o = Some v
                              /\ position v = position v' /\ texcoords v = texcoords v')
                 (replay (Indexed.vertices mI) (Indexed.indices mI)) (Flat.vertices mF).
Proof.
  split; [vm_compute; reflexivity|]. eexists. split; [vm_compute; reflexivity|].
  apply (builds_agree_but_for_normals bare_attrib [triangle; triangle_aba]);
    vm_compute; reflexivity.
Defined.
